(** * plqu: the price level queue of clob (src/plqu.c)

    A shallow embedding of the pool of price level queues and of the
    queue, iterator and pool operations, together with the properties
    of the specification that were checked against them.

    Conventions of the embedding:
    - [size_t] and [plqu_qid_t] are unsigned 64-bit integers, modelled
      as [Z] with the wrap-around written out ([wrap]);
    - a buffer [plqu_val_t *a] is the list of its elements ([NULL] is
      the empty list); sizes of allocations are counted in elements,
      the byte count [n * sizeof(plqu_val_t)] is taken not to wrap;
    - a handle [plqu_t] is a pointer into the static array [_pool],
      modelled as the index of the slot;
    - a result of type [option _] is [None] when the C code has no
      defined behaviour at that input (an access outside an object);
      the loop of the iterator runs on fuel, and the fuel
      [plqu_iter_next] gives it is shown to be enough
      ([plqu_iter_scan_fuel]). *)

From Stdlib Require Import ZArith Lia Bool.
From stdpp Require Import base option list.

Local Open Scope Z_scope.

(** ** Machine arithmetic *)

Definition size_bits : Z := 64.

(** Reduction of a mathematical integer to a [size_t]. *)
Definition wrap (x : Z) : Z := x mod 2 ^ size_bits.

(** [#define PLQU_INIZ (8U)] *)
Definition PLQU_INIZ : Z := 8.

(** [countof(_pool)] for [static struct plqu_s _pool[256U]] *)
Definition POOL_COUNT : nat := 256.

Section Plqu.

Set Default Proof Using "Type".

(** [plqu_val_t], [plqu_val_nil] and [plqu_val_nil_p] come from
    plqu_val.h, which belongs to the user of the queue: the queue is
    generic in them. *)
Context {val : Type}.
Variable plqu_val_nil : val.
Variable plqu_val_nil_p : val -> bool.

(** ** Buffers *)

(** [buf[slot]] as an rvalue. *)
Definition array_get (buf : list val) (slot : Z) : option val :=
  if (0 <=? slot) && (slot <? Z.of_nat (length buf))
  then buf !! Z.to_nat slot
  else None.

(** [buf[slot] = v] *)
Definition array_set (buf : list val) (slot : Z) (v : val) : option (list val) :=
  if (0 <=? slot) && (slot <? Z.of_nat (length buf))
  then Some (<[Z.to_nat slot := v]> buf)
  else None.

(** [realloc(old, n * sizeof( *old))].  The oracle [r] decides the
    outcome: [None] is the failure (the old block stays as it is),
    [Some junk] a block of [n] elements that starts with the elements
    of the old block; what lies beyond them is indeterminate and given
    by [junk]. *)
Definition realloc (r : option (nat -> val)) (old : list val) (n : Z)
  : option (list val) :=
  junk ← r;
  Some (take (Z.to_nat n) (old ++ (junk <$> seq 0 (Z.to_nat n)))).

(** [memcpy(buf + dst, buf + src, n * sizeof( *buf))]: both ranges must
    lie inside the block and must not overlap. *)
Definition memcpy (buf : list val) (dst src n : Z) : option (list val) :=
  if (0 <=? dst) && (0 <=? src) && (0 <=? n)
     && (dst + n <=? Z.of_nat (length buf))
     && (src + n <=? Z.of_nat (length buf))
     && ((src + n <=? dst) || (dst + n <=? src))
  then Some (take (Z.to_nat dst) buf
             ++ take (Z.to_nat n) (drop (Z.to_nat src) buf)
             ++ drop (Z.to_nat (dst + n)) buf)
  else None.

(** ** The queue *)

(** [struct plqu_s] *)
Record plqu_s : Type := Plqu {
  z : Z;            (* always a 2-power or a 2-power - 1U if in use *)
  a : list val;
  head : Z;
  tail : Z;
}.

(** [plqu_iter_t] of plqu.h: the queue iterated over (or [NULL]), the
    position and the value found there. *)
Record plqu_iter_t : Type := PlquIter {
  iter_q : option nat;
  iter_i : Z;
  iter_v : val;
}.

(** [plqu_get] *)
Definition plqu_get (q : plqu_s) (i : Z) : option val :=
  if negb ((head q <? i) && (i <=? tail q)) then Some plqu_val_nil
  else
    let slot := Z.land (wrap (i - 1)) (z q) in
    array_get (a q) slot.

(** [plqu_put]: the [int] returned and the queue afterwards. *)
Definition plqu_put (q : plqu_s) (i : Z) (v : val) : option (Z * plqu_s) :=
  if negb ((head q <? i) && (i <=? tail q)) then Some (-1, q)
  else
    let slot := Z.land (wrap (i - 1)) (z q) in
    buf ← array_set (a q) slot v;
    Some (0, Plqu (z q) buf (head q) (tail q)).

(** [q->a[q->tail++ & q->z] = v; return q->tail;] *)
Definition plqu_add_store (q : plqu_s) (v : val) : option (Z * plqu_s) :=
  let slot := Z.land (tail q) (z q) in
  buf ← array_set (a q) slot v;
  Some (wrap (tail q + 1), Plqu (z q) buf (head q) (wrap (tail q + 1))).

(** [((q->z + 1U) * 2U) ?: PLQU_INIZ] *)
Definition plqu_nuz (q : plqu_s) : Z :=
  let twice := wrap (wrap (z q + 1) * 2) in
  if twice =? 0 then PLQU_INIZ else twice.

(** [plqu_add]: the id returned and the queue afterwards.  [r] is the
    outcome of the [realloc] the call may make. *)
Definition plqu_add (r : option (nat -> val)) (q : plqu_s) (v : val)
  : option (Z * plqu_s) :=
  if wrap (tail q - head q) >=? wrap (z q + 1) then
    (* resize him *)
    let nuz := plqu_nuz q in
    match realloc r (a q) nuz with
    | None => Some (0, q)
    | Some tmp =>
        buf ← memcpy tmp (wrap (z q + 1)) 0 (wrap (z q + 1));
        plqu_add_store (Plqu (wrap (nuz - 1)) buf (head q) (tail q)) v
    end
  else plqu_add_store q v.

(** [plqu_top] *)
Definition plqu_top (q : plqu_s) : option val :=
  if head q <? tail q then array_get (a q) (Z.land (head q) (z q))
  else Some plqu_val_nil.

(** [plqu_pop]: the value returned and the queue afterwards. *)
Definition plqu_pop (q : plqu_s) : option (val * plqu_s) :=
  if head q <? tail q then
    let slot := Z.land (head q) (z q) in
    r ← array_get (a q) slot;
    Some (r, Plqu (z q) (a q) (wrap (head q + 1)) (tail q))
  else Some (plqu_val_nil, q).

(** ** The pool *)

(** [static struct plqu_s _pool[256U]], zero-initialised. *)
Definition _pool : list plqu_s := replicate POOL_COUNT (Plqu 0 [] 0 0).

(** The loop of [_next_free], at index [i] with the slots from [i] on
    still to look at: it stops at the end of the array or at the first
    slot with [z & 1U] clear. *)
Fixpoint _next_free_from (slots : list plqu_s) (i : nat) : nat :=
  match slots with
  | [] => i
  | q :: slots' =>
      if negb (Z.land (z q) 1 =? 0) then _next_free_from slots' (S i) else i
  end.

(** [_next_free] *)
Definition _next_free (pool : list plqu_s) : nat := _next_free_from pool 0.

(** [make_plqu]: the handle returned and the pool afterwards.  The slot
    [_pool + _ipool] is written without a look at [_ipool]; with
    [_ipool = countof(_pool)] that write is outside the array. *)
Definition make_plqu (pool : list plqu_s) : option (nat * list plqu_s) :=
  let _ipool := _next_free pool in
  r ← pool !! _ipool;
  (* mark in use *)
  Some (_ipool, <[_ipool := Plqu (wrap (z r - 1)) (a r) (head r) (tail r)]> pool).

(** [free_plqu] on the slot behind the handle. *)
Definition free_plqu (q : plqu_s) : plqu_s :=
  (* mark free *)
  Plqu (wrap (z q + 1)) (a q) 0 0.

(** A function on the slot behind a handle, run in the pool. *)
Definition at_handle {A : Type} (pool : list plqu_s) (h : nat)
    (f : plqu_s -> option (A * plqu_s)) : option (A * list plqu_s) :=
  q ← pool !! h;
  '(r, q') ← f q;
  Some (r, <[h := q']> pool).

(** ** The iterator *)

(** The [while] loop of [plqu_iter_next] and what follows it.  Every
    turn moves [iter->i] one step towards [q->tail]. *)
Fixpoint plqu_iter_scan (fuel : nat) (q : plqu_s) (iter : plqu_iter_t)
  : option (bool * plqu_iter_t) :=
  if iter_i iter <? tail q then
    match fuel with
    | O => None
    | S fuel' =>
        let slot := Z.land (iter_i iter) (z q) in
        let i' := wrap (iter_i iter + 1) in
        x ← array_get (a q) slot;
        if negb (plqu_val_nil_p x) then
          (* good one *)
          Some (true, PlquIter (iter_q iter) i' x)
        else plqu_iter_scan fuel' q (PlquIter (iter_q iter) i' (iter_v iter))
    end
  else
    (* set iter past tail *)
    Some (false, PlquIter (iter_q iter) (wrap (tail q + 1)) (iter_v iter)).

(** [plqu_iter_next]: the [bool] returned, the iterator and the pool
    afterwards. *)
Definition plqu_iter_next (pool : list plqu_s) (iter : plqu_iter_t)
  : option (bool * plqu_iter_t * list plqu_s) :=
  match iter_q iter with
  | None => Some (false, iter, pool)
  | Some h =>
      q ← pool !! h;
      let iter0 :=
        if iter_i iter <? head q
        then PlquIter (iter_q iter) (head q) (iter_v iter)
        else iter in
      '(found, iter') ← plqu_iter_scan (Z.to_nat (tail q - iter_i iter0)) q iter0;
      Some (found, iter', pool)
  end.

(** [plqu_iter_qid]; [iter.q] is dereferenced as it is. *)
Definition plqu_iter_qid (pool : list plqu_s) (iter : plqu_iter_t) : option Z :=
  h ← iter_q iter;
  q ← pool !! h;
  let cand := iter_i iter in
  Some (if cand <=? tail q then cand else 0).

(** [plqu_iter_put]: the [int] returned and the pool afterwards. *)
Definition plqu_iter_put (pool : list plqu_s) (iter : plqu_iter_t) (v : val)
  : option (Z * list plqu_s) :=
  match iter_q iter with
  | None => Some (-1, pool)
  | Some h =>
      q ← pool !! h;
      if (iter_i iter =? 0) || (tail q <? iter_i iter) then Some (-1, pool)
      else at_handle pool h (fun q => plqu_put q (iter_i iter) v)
  end.

(** [plqu_iter_set_top]: the [int] returned and the pool afterwards. *)
Definition plqu_iter_set_top (pool : list plqu_s) (iter : plqu_iter_t)
  : option (Z * list plqu_s) :=
  match iter_q iter with
  | None => Some (-1, pool)
  | Some h =>
      if iter_i iter =? 0 then Some (-1, pool)
      else
        (* otherwise index becomes head *)
        at_handle pool h
          (fun q => Some (0, Plqu (z q) (a q) (wrap (iter_i iter - 1)) (tail q)))
  end.

(** ** Runs of the interface *)

(** [plqu_add] for one value after the other, every [realloc] on the
    way being successful: the ids returned, in order, and the queue
    afterwards.  An element of [xs] is the value to add and the
    contents of the memory a [realloc] made for it would hand out. *)
Fixpoint plqu_add_all (q : plqu_s) (xs : list ((nat -> val) * val))
  : option (list Z * plqu_s) :=
  match xs with
  | [] => Some ([], q)
  | (junk, v) :: xs' =>
      '(id, q1) ← plqu_add (Some junk) q v;
      '(ids, q2) ← plqu_add_all q1 xs';
      Some (id :: ids, q2)
  end.

(** [make_plqu] called [n] times in a row. *)
Fixpoint make_plqu_times (n : nat) (pool : list plqu_s) : option (list plqu_s) :=
  match n with
  | O => Some pool
  | S n' => '(_, pool') ← make_plqu pool; make_plqu_times n' pool'
  end.

(** A call of a function of plqu.h by the owner of the queues. *)
Inductive call : Type :=
| call_make_plqu
| call_free_plqu (h : nat)
| call_plqu_get (h : nat) (i : Z)
| call_plqu_put (h : nat) (i : Z) (v : val)
| call_plqu_add (r : option (nat -> val)) (h : nat) (v : val)
| call_plqu_top (h : nat)
| call_plqu_pop (h : nat)
| call_plqu_iter_next (iter : plqu_iter_t)
| call_plqu_iter_qid (iter : plqu_iter_t)
| call_plqu_iter_put (iter : plqu_iter_t) (v : val)
| call_plqu_iter_set_top (iter : plqu_iter_t).

(** The pool after a call. *)
Definition run (pool : list plqu_s) (c : call) : option (list plqu_s) :=
  match c with
  | call_make_plqu => snd <$> make_plqu pool
  | call_free_plqu h => snd <$> at_handle pool h (fun q => Some (tt, free_plqu q))
  | call_plqu_get h i => q ← pool !! h; _ ← plqu_get q i; Some pool
  | call_plqu_put h i v => snd <$> at_handle pool h (fun q => plqu_put q i v)
  | call_plqu_add r h v => snd <$> at_handle pool h (fun q => plqu_add r q v)
  | call_plqu_top h => q ← pool !! h; _ ← plqu_top q; Some pool
  | call_plqu_pop h => snd <$> at_handle pool h plqu_pop
  | call_plqu_iter_next iter => snd <$> plqu_iter_next pool iter
  | call_plqu_iter_qid iter => _ ← plqu_iter_qid pool iter; Some pool
  | call_plqu_iter_put iter v => snd <$> plqu_iter_put pool iter v
  | call_plqu_iter_set_top iter => snd <$> plqu_iter_set_top pool iter
  end.

(** The handle a call is made on, if any. *)
Definition call_handle (c : call) : option nat :=
  match c with
  | call_make_plqu => None
  | call_free_plqu h | call_plqu_get h _ | call_plqu_put h _ _
  | call_plqu_add _ h _ | call_plqu_top h | call_plqu_pop h => Some h
  | call_plqu_iter_next iter | call_plqu_iter_qid iter
  | call_plqu_iter_put iter _ | call_plqu_iter_set_top iter => iter_q iter
  end.

(** ** Predicates on queues and pools *)

(** The number of elements of the buffer. *)
Definition cap (q : plqu_s) : Z := Z.of_nat (length (a q)).

(** A value of type [size_t]. *)
Definition size_ok (x : Z) : Prop := 0 <= x < 2 ^ size_bits.

(** The sizes a buffer goes through: none, then [PLQU_INIZ] doubled
    again and again. *)
Definition cap_ok (c : Z) : Prop := c = 0 \/ exists k, 3 <= k <= 63 /\ c = 2 ^ k.

(** The slot is marked in use: [z & 1U]. *)
Definition in_use (q : plqu_s) : Prop := Z.land (z q) 1 <> 0.

(** [z] of a slot in use: the size of the buffer less one, as a
    [size_t]. *)
Definition inuse_ok (q : plqu_s) : Prop :=
  cap_ok (cap q) /\ z q = wrap (cap q - 1).

(** A slot that is not in use: [z] is the size of the buffer and the
    queue is empty. *)
Definition free_ok (q : plqu_s) : Prop :=
  cap_ok (cap q) /\ z q = cap q /\ head q = 0 /\ tail q = 0.

Definition slot_ok (q : plqu_s) : Prop := free_ok q \/ inuse_ok q.

(** A queue in use whose elements [(head, tail]] fit its buffer. *)
Definition plqu_ok (q : plqu_s) : Prop :=
  inuse_ok q /\ size_ok (head q) /\ size_ok (tail q)
  /\ head q <= tail q /\ tail q - head q <= cap q.

(** The id [j] of [q] holds a value that [plqu_val_nil_p] takes for
    nil. *)
Definition nil_at (q : plqu_s) (j : Z) : Prop :=
  exists y, plqu_get q j = Some y /\ plqu_val_nil_p y = true.

Definition pool_ok (pool : list plqu_s) : Prop :=
  length pool = POOL_COUNT /\ Forall slot_ok pool.

(** The owner calls the functions on handles that are in use only. *)
Definition allowed (pool : list plqu_s) (c : call) : Prop :=
  forall h, call_handle c = Some h ->
            exists q, pool !! h = Some q /\ in_use q.

(** The pools the owner can get to from the initial one. *)
Inductive reachable : list plqu_s -> Prop :=
| reachable_init : reachable _pool
| reachable_step pool c pool' :
    reachable pool -> allowed pool c -> run pool c = Some pool' ->
    reachable pool'.

(** ** Further runs and predicates *)

(** [plqu_pop] called [n] times in a row: the values returned, in
    order, and the queue afterwards. *)
Fixpoint plqu_pop_all (n : nat) (q : plqu_s) : option (list val * plqu_s) :=
  match n with
  | O => Some ([], q)
  | S n' =>
      '(x, q1) ← plqu_pop q;
      '(xs, q2) ← plqu_pop_all n' q1;
      Some (x :: xs, q2)
  end.

(** The loop [while (plqu_iter_next(&iter)) ...] of a user of the
    iterator, run for [fuel] turns at most: the ids and values the
    iterator shows, in order, and whether the loop came to its end. *)
Fixpoint plqu_iter_all (fuel : nat) (pool : list plqu_s) (iter : plqu_iter_t)
  : option (list (Z * val) * bool) :=
  match fuel with
  | O => Some ([], false)
  | S fuel' =>
      '(found, iter', pool') ← plqu_iter_next pool iter;
      if found : bool then
        '(rest, ended) ← plqu_iter_all fuel' pool' iter';
        Some ((iter_i iter', iter_v iter') :: rest, ended)
      else Some ([], true)
  end.

(** The ids from [i + 1] to [i + n] of [q] with the values they hold,
    those with nil left out. *)
Fixpoint live_from (q : plqu_s) (i : Z) (n : nat) : list (Z * val) :=
  match n with
  | O => []
  | S n' =>
      match plqu_get q (i + 1) with
      | Some x =>
          if plqu_val_nil_p x then live_from q (i + 1) n'
          else (i + 1, x) :: live_from q (i + 1) n'
      | None => live_from q (i + 1) n'
      end
  end.

(** What [plqu_get] gives for the ids from [i + 1] to [i + n]. *)
Fixpoint values_from (q : plqu_s) (i : Z) (n : nat) : list val :=
  match n with
  | O => []
  | S n' =>
      match plqu_get q (i + 1) with
      | Some x => x :: values_from q (i + 1) n'
      | None => values_from q (i + 1) n'
      end
  end.

(** The values of the queue, from the front to the back. *)
Definition plqu_values (q : plqu_s) : list val :=
  values_from q (head q) (Z.to_nat (tail q - head q)).

(** Counters are [size_t] values, and a slot without a buffer holds
    no elements. *)
Definition slot_safe (q : plqu_s) : Prop :=
  size_ok (head q) /\ size_ok (tail q) /\ (cap q = 0 -> tail q = 0).

(** * Properties *)

(** Splits the goal along its conjunctions, and no further. *)
Ltac conjs := repeat match goal with |- _ /\ _ => split end.

(** ** Sizes and masks *)

Lemma pow64 : 2 ^ size_bits = 18446744073709551616.
Proof. reflexivity. Qed.

Lemma wrap_small x : size_ok x -> wrap x = x.
Proof. unfold size_ok, wrap. intros Hx. apply Z.mod_small. lia. Qed.

Lemma wrap_size_ok x : size_ok (wrap x).
Proof. unfold size_ok, wrap. apply Z.mod_pos_bound. reflexivity. Qed.

Lemma land_1_mod x : Z.land x 1 = x mod 2.
Proof. change 1 with (Z.ones 1). rewrite Z.land_ones by lia. reflexivity. Qed.

Lemma land_pow2_pred x k : 0 <= k -> Z.land x (2 ^ k - 1) = x mod 2 ^ k.
Proof.
  intros Hk. rewrite <- Z.land_ones by assumption.
  now rewrite Z.ones_equiv, <- Z.sub_1_r.
Qed.

Lemma pow2_even k : 1 <= k -> 2 ^ k = 2 * 2 ^ (k - 1).
Proof.
  intros Hk. replace k with (Z.succ (k - 1)) at 1 by lia.
  apply Z.pow_succ_r. lia.
Qed.

Lemma cap_ok_range c :
  cap_ok c -> (c = 0 \/ 8 <= c) /\ c <= 2 ^ 63 /\ c mod 2 = 0.
Proof.
  intros [-> | (k & Hk & ->)]; [split; [lia | split; [lia | reflexivity]] |].
  split; [right | split].
  - change 8 with (2 ^ 3). apply Z.pow_le_mono_r; lia.
  - apply Z.pow_le_mono_r; lia.
  - rewrite (pow2_even k) by lia. rewrite Z.mul_comm. apply Z.mod_mul. lia.
Qed.

Lemma inuse_ok_z q :
  inuse_ok q ->
  (cap q = 0 /\ z q = 2 ^ size_bits - 1) \/ (8 <= cap q /\ z q = cap q - 1).
Proof.
  intros [Hc Hz]. destruct (cap_ok_range _ Hc) as (H0 & Hle & _).
  destruct H0 as [H0 | H8]; [left | right]; split; try assumption.
  - rewrite Hz, H0. reflexivity.
  - rewrite Hz. apply wrap_small. unfold size_ok. rewrite pow64. lia.
Qed.

(** With a buffer, the mask picks the slot of a position. *)
Lemma inuse_mask q x : inuse_ok q -> 0 < cap q -> Z.land x (z q) = x mod cap q.
Proof.
  intros Hq Hpos. destruct (inuse_ok_z q Hq) as [[H0 _] | [_ Hz]]; [lia |].
  destruct Hq as [[H0 | (k & Hk & Hc)] _]; [lia |].
  rewrite Hz, Hc. apply land_pow2_pred. lia.
Qed.

Lemma inuse_slot_lt q x : inuse_ok q -> 0 < cap q -> 0 <= Z.land x (z q) < cap q.
Proof.
  intros Hq Hpos. rewrite inuse_mask by assumption. apply Z.mod_pos_bound. lia.
Qed.

Lemma inuse_in_use q : inuse_ok q -> in_use q.
Proof.
  intros Hq. unfold in_use. rewrite land_1_mod.
  destruct (inuse_ok_z q Hq) as [[_ ->] | [H8 ->]]; [discriminate |].
  destruct Hq as [Hc _]. apply cap_ok_range in Hc as (_ & _ & Hev).
  rewrite <- Zminus_mod_idemp_l, Hev. discriminate.
Qed.

Lemma free_not_in_use q : free_ok q -> ~ in_use q.
Proof.
  intros (Hc & Hz & _). unfold in_use. rewrite land_1_mod, Hz.
  apply cap_ok_range in Hc as (_ & _ & Hev). intros Hne. now apply Hne.
Qed.

Lemma array_get_lookup (buf : list val) slot :
  0 <= slot < Z.of_nat (length buf) ->
  exists x, array_get buf slot = Some x /\ buf !! Z.to_nat slot = Some x.
Proof.
  intros Hs. unfold array_get.
  destruct (Z.leb_spec 0 slot), (Z.ltb_spec slot (Z.of_nat (length buf))); try lia.
  simpl. destruct (lookup_lt_is_Some_2 buf (Z.to_nat slot)) as [x Hx]; [lia |].
  exists x. now rewrite Hx.
Qed.

Lemma array_set_insert (buf : list val) slot v :
  0 <= slot < Z.of_nat (length buf) ->
  array_set buf slot v = Some (<[Z.to_nat slot := v]> buf).
Proof.
  intros Hs. unfold array_set.
  destruct (Z.leb_spec 0 slot), (Z.ltb_spec slot (Z.of_nat (length buf))); try lia.
  reflexivity.
Qed.

Lemma array_set_length (buf buf' : list val) slot v :
  array_set buf slot v = Some buf' -> length buf' = length buf.
Proof.
  unfold array_set. destruct (_ && _); [| discriminate].
  intros [= <-]. apply length_insert.
Qed.

(** ** Reading a live id *)

Lemma plqu_ok_cap_pos q : plqu_ok q -> head q < tail q -> 0 < cap q.
Proof. intros (_ & _ & _ & _ & Hw) Hlt. lia. Qed.

(** The value of a live id sits at [(i - 1) mod cap]. *)
Lemma plqu_get_live q i :
  plqu_ok q -> head q < i <= tail q ->
  exists x, plqu_get q i = Some x
            /\ a q !! Z.to_nat ((i - 1) mod cap q) = Some x.
Proof.
  intros Hq Hi. pose proof (plqu_ok_cap_pos q Hq ltac:(lia)) as Hpos.
  destruct Hq as (Hz & Hh & Ht & Hle & Hw). unfold plqu_get.
  destruct (Z.ltb_spec (head q) i), (Z.leb_spec i (tail q)); try lia. simpl.
  rewrite wrap_small by (unfold size_ok in *; lia).
  destruct (array_get_lookup (a q) (Z.land (i - 1) (z q))) as (x & Hx & Hl).
  { now apply inuse_slot_lt. }
  exists x. split; [assumption |]. now rewrite <- (inuse_mask q) by assumption.
Qed.

Lemma plqu_get_out q i :
  ~ (head q < i <= tail q) -> plqu_get q i = Some plqu_val_nil.
Proof.
  intros Hi. unfold plqu_get.
  destruct (Z.ltb_spec (head q) i), (Z.leb_spec i (tail q)); try lia; reflexivity.
Qed.

(** ** The pool when every slot is taken *)

Lemma _next_free_from_in_use slots i :
  Forall in_use slots -> _next_free_from slots i = (i + length slots)%nat.
Proof.
  intros Hall. revert i. induction Hall as [| q slots Hq _ IH]; intros i; simpl.
  - lia.
  - unfold in_use in Hq. destruct (Z.eqb_spec (Z.land (z q) 1) 0); [contradiction |].
    simpl. rewrite IH. lia.
Qed.

(** C1: with every one of the 256 slots in use, [_next_free] stops at
    the end of the array and returns 256, and [make_plqu] goes on to
    write to [_pool[256]], outside the array: it reports no "pool
    exhausted" error (it has no way to report one) and its behaviour is
    not defined. *)
Theorem make_plqu_pool_exhausted (pool : list plqu_s) :
  length pool = POOL_COUNT -> Forall in_use pool ->
  _next_free pool = POOL_COUNT /\ make_plqu pool = None.
Proof.
  intros Hlen Hall.
  assert (_next_free pool = POOL_COUNT) as Hnf.
  { unfold _next_free. rewrite _next_free_from_in_use by assumption. lia. }
  split; [assumption |]. unfold make_plqu. rewrite Hnf.
  rewrite (lookup_ge_None_2 pool POOL_COUNT) by lia. reflexivity.
Qed.

(** ** Growth that fails *)

(** C4: when the queue is full and [realloc] fails, [plqu_add] returns
    the id 0 and the queue is as it was: the value is not stored, and
    the buffer, [head] and [tail] are unchanged. *)
Theorem plqu_add_realloc_failure q v :
  wrap (tail q - head q) >= wrap (z q + 1) ->
  plqu_add None q v = Some (0, q).
Proof.
  intros Hfull. unfold plqu_add.
  destruct (Z.geb_spec (wrap (tail q - head q)) (wrap (z q + 1))); [| lia].
  reflexivity.
Qed.

(** ** Popping the front *)

(** C7: with [head < tail], [plqu_pop] returns the value stored at id
    [head + 1], whatever it is (nil as well), and moves [head] on by
    one; with [head = tail] it returns nil and leaves the queue as it
    is. *)
Theorem plqu_pop_front q :
  plqu_ok q ->
  (head q < tail q ->
   exists x, plqu_get q (head q + 1) = Some x
             /\ plqu_pop q = Some (x, Plqu (z q) (a q) (head q + 1) (tail q)))
  /\ (head q = tail q -> plqu_pop q = Some (plqu_val_nil, q)).
Proof.
  intros Hq. split.
  - intros Hlt. pose proof (plqu_ok_cap_pos q Hq Hlt) as Hpos.
    destruct (plqu_get_live q (head q + 1) Hq ltac:(lia)) as (x & Hg & Hl).
    exists x. split; [assumption |].
    destruct Hq as (Hz & Hh & Ht & Hle & Hw). unfold plqu_pop.
    destruct (Z.ltb_spec (head q) (tail q)); [| lia].
    destruct (array_get_lookup (a q) (Z.land (head q) (z q))) as (y & Hy & Hly).
    { now apply inuse_slot_lt. }
    rewrite Hy. simpl.
    rewrite inuse_mask in Hly by assumption.
    replace (head q + 1 - 1) with (head q) in Hl by lia.
    rewrite Hl in Hly. injection Hly as <-.
    rewrite (wrap_small (head q + 1)) by (unfold size_ok in *; lia).
    reflexivity.
  - intros Heq. unfold plqu_pop.
    destruct (Z.ltb_spec (head q) (tail q)); [lia | reflexivity].
Qed.

(** ** The iterator *)

(** A successful scan stops on an id of the queue past where it
    started. *)
Lemma plqu_iter_scan_found fuel q iter iter' :
  size_ok (tail q) -> 0 <= iter_i iter ->
  plqu_iter_scan fuel q iter = Some (true, iter') ->
  iter_q iter' = iter_q iter /\ iter_i iter < iter_i iter' <= tail q.
Proof.
  intros Ht. revert iter. induction fuel as [| fuel IH]; intros iter Hi; simpl.
  - destruct (Z.ltb_spec (iter_i iter) (tail q)); discriminate.
  - destruct (Z.ltb_spec (iter_i iter) (tail q)) as [Hlt | Hge]; [| discriminate].
    rewrite (wrap_small (iter_i iter + 1)) by (unfold size_ok in *; lia).
    destruct (array_get _ _) as [x |]; [| discriminate]. simpl.
    destruct (plqu_val_nil_p x); simpl.
    + intros Hs. apply IH in Hs; simpl in *; [| lia].
      destruct Hs as [-> Hs]. split; [reflexivity | lia].
    + intros [= <-]. simpl. split; [reflexivity | lia].
Qed.

(** The fuel [plqu_iter_next] gives to the loop is enough: more of it
    changes nothing, so a result [None] of the loop comes from a read
    outside the buffer only. *)
Lemma plqu_iter_scan_fuel q : forall fuel fuel' iter,
  size_ok (tail q) -> 0 <= iter_i iter ->
  (Z.to_nat (tail q - iter_i iter) <= fuel)%nat ->
  (Z.to_nat (tail q - iter_i iter) <= fuel')%nat ->
  plqu_iter_scan fuel q iter = plqu_iter_scan fuel' q iter.
Proof.
  induction fuel as [| fuel IH]; intros [| fuel'] iter Ht Hi Hf Hf'; simpl;
    destruct (Z.ltb_spec (iter_i iter) (tail q)) as [Hlt | Hge];
    try reflexivity; try lia.
  rewrite (wrap_small (iter_i iter + 1)) by (unfold size_ok in *; lia).
  destruct (array_get _ _) as [x |]; [| reflexivity]. simpl.
  destruct (plqu_val_nil_p x); [| reflexivity]. simpl.
  apply IH; simpl; try assumption; lia.
Qed.

(** What the scan finds: the first id after the position that does not
    hold nil, or none. *)
Lemma plqu_iter_scan_spec fuel q iter :
  plqu_ok q -> head q <= iter_i iter ->
  (Z.to_nat (tail q - iter_i iter) <= fuel)%nat ->
  (exists k x,
      iter_i iter < k <= tail q
      /\ plqu_get q k = Some x /\ plqu_val_nil_p x = false
      /\ (forall j, iter_i iter < j < k -> nil_at q j)
      /\ plqu_iter_scan fuel q iter = Some (true, PlquIter (iter_q iter) k x))
  \/ ((forall j, iter_i iter < j <= tail q -> nil_at q j)
      /\ plqu_iter_scan fuel q iter
         = Some (false, PlquIter (iter_q iter) (wrap (tail q + 1)) (iter_v iter))).
Proof.
  intros Hq. revert iter.
  induction fuel as [| fuel IH]; intros iter Hi Hfuel.
  - right. simpl. destruct (Z.ltb_spec (iter_i iter) (tail q)); [lia |].
    split; [intros j Hj; lia | reflexivity].
  - simpl. destruct (Z.ltb_spec (iter_i iter) (tail q)) as [Hlt | Hge].
    2:{ right. split; [intros j Hj; lia | reflexivity]. }
    pose proof (plqu_ok_cap_pos q Hq ltac:(lia)) as Hpos.
    destruct (plqu_get_live q (iter_i iter + 1) Hq ltac:(lia)) as (x & Hg & Hl).
    pose proof Hq as (Hz & Hh & Ht & Hle & Hw).
    destruct (array_get_lookup (a q) (Z.land (iter_i iter) (z q)))
      as (y & Hy & Hly).
    { now apply inuse_slot_lt. }
    rewrite inuse_mask in Hly by assumption.
    replace (iter_i iter + 1 - 1) with (iter_i iter) in Hl by lia.
    rewrite Hl in Hly. injection Hly as <-. rewrite Hy. simpl.
    rewrite (wrap_small (iter_i iter + 1)) by (unfold size_ok in *; lia).
    destruct (plqu_val_nil_p x) eqn:Hnil; simpl.
    + destruct (IH (PlquIter (iter_q iter) (iter_i iter + 1) (iter_v iter)))
        as [(k & x' & Hk & Hgk & Hnk & Hbelow & Hs) | (Hall & Hs)];
        simpl in *; try lia.
      * left. exists k, x'. repeat split; try assumption; try lia.
        intros j Hj. destruct (Z.eq_dec j (iter_i iter + 1)) as [-> | Hne].
        -- exists x. now split.
        -- apply Hbelow. lia.
      * right. split; [| assumption].
        intros j Hj. destruct (Z.eq_dec j (iter_i iter + 1)) as [-> | Hne].
        -- exists x. now split.
        -- apply Hall. lia.
    + left. exists (iter_i iter + 1), x. repeat split; try assumption; lia.
Qed.

(** C6: [plqu_iter_next] on an unbound iterator reports [false].  On an
    iterator bound to a queue it starts from its position or from
    [head], whichever is greater, and either stops on the least id
    after that start, up to [tail], that does not hold nil, with that
    id and its value in the iterator, and reports [true]; or, when there
    is no such id, leaves the position at [tail + 1] (as a [size_t])
    and reports [false].  The pool is as it was. *)
Theorem plqu_iter_next_spec pool iter :
  (iter_q iter = None -> plqu_iter_next pool iter = Some (false, iter, pool))
  /\ (forall h q,
        iter_q iter = Some h -> pool !! h = Some q -> plqu_ok q ->
        let i0 := Z.max (iter_i iter) (head q) in
        (exists k x,
            i0 < k <= tail q
            /\ plqu_get q k = Some x /\ plqu_val_nil_p x = false
            /\ (forall j, i0 < j < k -> nil_at q j)
            /\ plqu_iter_next pool iter
               = Some (true, PlquIter (Some h) k x, pool))
        \/ ((forall j, i0 < j <= tail q -> nil_at q j)
            /\ plqu_iter_next pool iter
               = Some (false,
                       PlquIter (Some h) (wrap (tail q + 1)) (iter_v iter),
                       pool))).
Proof.
  split.
  - intros Hn. unfold plqu_iter_next. now rewrite Hn.
  - intros h q Hb Hl Hq i0. unfold plqu_iter_next. rewrite Hb, Hl. simpl.
    set (iter0 := if iter_i iter <? head q
                  then PlquIter (Some h) (head q) (iter_v iter)
                  else iter).
    assert (iter_i iter0 = i0 /\ iter_q iter0 = Some h
            /\ iter_v iter0 = iter_v iter) as (Hi0 & Hq0 & Hv0).
    { subst iter0 i0. destruct (Z.ltb_spec (iter_i iter) (head q)); simpl;
        (split; [lia | now split]). }
    destruct (plqu_iter_scan_spec (Z.to_nat (tail q - iter_i iter0)) q iter0)
      as [(k & x & Hk & Hg & Hnil & Hbelow & Hs) | (Hall & Hs)];
      try assumption; try lia.
    + left. exists k, x. rewrite Hi0 in Hk, Hbelow. rewrite Hq0 in Hs.
      repeat split; try assumption; try lia. now rewrite Hs.
    + right. rewrite Hi0 in Hall. rewrite Hq0, Hv0 in Hs.
      split; [assumption |]. now rewrite Hs.
Qed.

(** ** Making the position of an iterator the front *)

Lemma plqu_iter_set_top_refused pool iter :
  iter_q iter = None \/ iter_i iter = 0 ->
  plqu_iter_set_top pool iter = Some (-1, pool).
Proof.
  unfold plqu_iter_set_top. intros [-> | ->]; [reflexivity |].
  now destruct (iter_q iter).
Qed.

Lemma plqu_iter_set_top_done pool iter h q :
  iter_q iter = Some h -> pool !! h = Some q -> iter_i iter <> 0 ->
  plqu_iter_set_top pool iter
  = Some (0, <[h := Plqu (z q) (a q) (wrap (iter_i iter - 1)) (tail q)]> pool).
Proof.
  intros Hb Hl Hi. unfold plqu_iter_set_top, at_handle. rewrite Hb.
  destruct (Z.eqb_spec (iter_i iter) 0); [contradiction |]. now rewrite Hl.
Qed.

(** C5, as the code has it: [plqu_iter_set_top] fails (returns -1 and
    leaves the pool alone) when the iterator is unbound or its position
    is 0.  On every other iterator bound to a queue, the exhausted one
    with position [tail + 1] included, it succeeds and sets [head] to
    the position less one; so it does after [plqu_iter_next] found an
    id [k]: [head] becomes [k - 1]. *)
Theorem plqu_iter_set_top_spec pool iter :
  (iter_q iter = None \/ iter_i iter = 0 ->
   plqu_iter_set_top pool iter = Some (-1, pool))
  /\ (forall h q,
        iter_q iter = Some h -> pool !! h = Some q ->
        iter_i iter <> 0 -> size_ok (iter_i iter) ->
        plqu_iter_set_top pool iter
        = Some (0, <[h := Plqu (z q) (a q) (iter_i iter - 1) (tail q)]> pool))
  /\ (forall h q before,
        iter_q before = Some h -> pool !! h = Some q ->
        size_ok (head q) -> size_ok (tail q) ->
        plqu_iter_next pool before = Some (true, iter, pool) ->
        head q < iter_i iter <= tail q
        /\ plqu_iter_set_top pool iter
           = Some (0, <[h := Plqu (z q) (a q) (iter_i iter - 1) (tail q)]> pool)).
Proof.
  split; [apply plqu_iter_set_top_refused | split].
  - intros h q Hb Hl Hi Hs.
    rewrite (plqu_iter_set_top_done pool iter h q) by assumption.
    rewrite wrap_small; [reflexivity |]. unfold size_ok in *. lia.
  - intros h q before Hb Hl Hh Ht Hnext.
    unfold plqu_iter_next in Hnext. rewrite Hb, Hl in Hnext. simpl in Hnext.
    destruct (plqu_iter_scan _ _ _) as [[found iter'] |] eqn:Hs; [| discriminate].
    simpl in Hnext. injection Hnext as -> ->.
    apply plqu_iter_scan_found in Hs; [| assumption |].
    2:{ unfold size_ok in *.
        destruct (Z.ltb_spec (iter_i before) (head q)); simpl; lia. }
    destruct Hs as [Hq' Hi'].
    assert (head q <= iter_i (if iter_i before <? head q
                              then PlquIter (Some h) (head q) (iter_v before)
                              else before)) as H0.
    { destruct (Z.ltb_spec (iter_i before) (head q)); simpl; lia. }
    assert (iter_q iter = Some h) as Hqi.
    { rewrite Hq'. now destruct (iter_i before <? head q). }
    split; [lia |].
    rewrite (plqu_iter_set_top_done pool iter h q); try assumption.
    + rewrite wrap_small; [reflexivity |]. unfold size_ok in *. lia.
    + unfold size_ok in *. lia.
Qed.

(** C10: [plqu_iter_set_top] does not compare the position [i] of the
    iterator with the queue: bound and with [i <> 0] it sets [head] to
    [i - 1].  With [i] at or before [head] this moves [head] back, and
    the ids from [i] to the old [head], which [plqu_get] took for out
    of range, are read from the buffer again; with [i = tail + 1], the
    position of an exhausted iterator, [head] becomes [tail] and the
    queue is empty. *)
Theorem plqu_iter_set_top_no_clamp pool iter h q :
  iter_q iter = Some h -> pool !! h = Some q ->
  iter_i iter <> 0 -> size_ok (iter_i iter) ->
  let q' := Plqu (z q) (a q) (iter_i iter - 1) (tail q) in
  plqu_iter_set_top pool iter = Some (0, <[h := q']> pool)
  /\ <[h := q']> pool !! h = Some q'
  /\ (iter_i iter <= head q ->
      head q' < head q
      /\ forall j, iter_i iter <= j <= head q -> j <= tail q ->
           plqu_get q j = Some plqu_val_nil
           /\ head q' < j <= tail q'
           /\ plqu_get q' j = array_get (a q) (Z.land (wrap (j - 1)) (z q)))
  /\ (iter_i iter = tail q + 1 ->
      head q' = tail q'
      /\ (forall j, plqu_get q' j = Some plqu_val_nil)
      /\ plqu_top q' = Some plqu_val_nil
      /\ plqu_pop q' = Some (plqu_val_nil, q')).
Proof.
  intros Hb Hl Hi Hs q'. split; [| split; [| split]].
  - rewrite (plqu_iter_set_top_done pool iter h q) by assumption.
    rewrite wrap_small; [reflexivity |]. unfold size_ok in *. lia.
  - apply list_lookup_insert_eq. now apply lookup_lt_Some in Hl.
  - intros Hstale. subst q'. simpl. split; [lia |]. intros j Hj Hjt.
    split; [apply plqu_get_out; lia |]. split; [lia |].
    unfold plqu_get. simpl.
    destruct (Z.ltb_spec (iter_i iter - 1) j), (Z.leb_spec j (tail q));
      try lia. reflexivity.
  - intros Hex. subst q'. simpl. split; [lia |]. split; [| split].
    + intros j. apply plqu_get_out. simpl. lia.
    + unfold plqu_top. simpl.
      destruct (Z.ltb_spec (iter_i iter - 1) (tail q)); [lia | reflexivity].
    + unfold plqu_pop. simpl.
      destruct (Z.ltb_spec (iter_i iter - 1) (tail q)); [lia | reflexivity].
Qed.

(** ** Growing the buffer *)

Lemma realloc_block junk (old : list val) n :
  (length old <= n)%nat ->
  realloc (Some junk) old (Z.of_nat n)
  = Some (old ++ take (n - length old) (junk <$> seq 0 n)).
Proof.
  intros Hn. unfold realloc. simpl. rewrite Nat2Z.id. f_equal.
  replace n with (length old + (n - length old))%nat at 1 by lia.
  apply take_app_add.
Qed.

Lemma realloc_block_length junk (old : list val) n :
  (length old <= n)%nat ->
  length (old ++ take (n - length old) (junk <$> seq 0 n)) = n.
Proof.
  intros Hn. rewrite length_app, length_take, length_fmap, length_seq. lia.
Qed.

(** Copying the lower half of a block onto its upper half. *)
Lemma memcpy_clone (old rest : list val) :
  length rest = length old ->
  memcpy (old ++ rest) (Z.of_nat (length old)) 0 (Z.of_nat (length old))
  = Some (old ++ old).
Proof.
  intros Hrest. unfold memcpy. rewrite length_app, Hrest.
  destruct (Z.leb_spec 0 (Z.of_nat (length old))); [| lia].
  destruct (Z.leb_spec (Z.of_nat (length old) + Z.of_nat (length old))
              (Z.of_nat (length old + length old))); [| lia].
  destruct (Z.leb_spec (0 + Z.of_nat (length old))
              (Z.of_nat (length old + length old))); [| lia].
  destruct (Z.leb_spec (0 + Z.of_nat (length old)) (Z.of_nat (length old)));
    [| lia].
  simpl. f_equal. rewrite Nat2Z.id, take_app_length. f_equal.
  change (Z.to_nat 0) with 0%nat. rewrite drop_0, take_app_length.
  rewrite drop_ge; [apply app_nil_r |].
  rewrite length_app. lia.
Qed.

Lemma memcpy_nothing (buf : list val) : memcpy buf 0 0 0 = Some buf.
Proof.
  unfold memcpy. change (0 + 0) with 0. simpl.
  destruct (Z.leb_spec 0 (Z.of_nat (length buf))); [| lia]. reflexivity.
Qed.

Lemma memcpy_outside (buf : list val) dst src n :
  Z.of_nat (length buf) < dst + n -> memcpy buf dst src n = None.
Proof.
  intros Hout. unfold memcpy.
  destruct (Z.leb_spec (dst + n) (Z.of_nat (length buf))); [lia |].
  now rewrite !andb_false_r.
Qed.

Lemma plqu_add_store_at q v :
  inuse_ok q -> 0 < cap q ->
  plqu_add_store q v
  = Some (wrap (tail q + 1),
          Plqu (z q) (<[Z.to_nat (tail q mod cap q) := v]> (a q))
               (head q) (wrap (tail q + 1))).
Proof.
  intros Hq Hpos. unfold plqu_add_store.
  rewrite array_set_insert by now apply inuse_slot_lt.
  now rewrite inuse_mask.
Qed.

(** Whether [plqu_add] resizes. *)
Lemma plqu_add_full q :
  plqu_ok q ->
  (wrap (tail q - head q) >=? wrap (z q + 1)) = true
  <-> tail q - head q = cap q.
Proof.
  intros (Hz & Hh & Ht & Hle & Hw).
  rewrite (wrap_small (tail q - head q)) by (unfold size_ok in *; lia).
  assert (wrap (z q + 1) = cap q) as ->.
  { destruct (inuse_ok_z q Hz) as [[-> ->] | [H8 ->]]; [reflexivity |].
    destruct Hz as [Hc _]. apply cap_ok_range in Hc.
    replace (cap q - 1 + 1) with (cap q) by lia.
    apply wrap_small. unfold size_ok. rewrite pow64. lia. }
  destruct (Z.geb_spec (tail q - head q) (cap q)); split; intros; try lia;
    try discriminate; reflexivity.
Qed.

(** The first buffer of a queue. *)
Lemma plqu_add_grow_first junk q v :
  inuse_ok q -> cap q = 0 ->
  plqu_add (Some junk) q v
  = plqu_add_store (Plqu 7 (junk <$> seq 0 8) (head q) (tail q)) v.
Proof.
  intros Hq H0. destruct (inuse_ok_z q Hq) as [[_ Hz] | [H8 _]]; [| lia].
  unfold plqu_add, plqu_nuz. rewrite Hz.
  replace (wrap (2 ^ size_bits - 1 + 1)) with 0 by reflexivity.
  destruct (Z.geb_spec (wrap (tail q - head q)) 0) as [_ | Hneg].
  2:{ pose proof (wrap_size_ok (tail q - head q)). unfold size_ok in *. lia. }
  change (wrap (0 * 2) =? 0) with true. cbv iota.
  assert (a q = []) as ->.
  { unfold cap in H0. destruct (a q); [reflexivity | simpl in H0; lia]. }
  change PLQU_INIZ with (Z.of_nat 8).
  rewrite realloc_block by (simpl; lia).
  rewrite memcpy_nothing. reflexivity.
Qed.

(** Doubling the buffer: the old elements, twice. *)
Lemma plqu_add_grow_double junk q v :
  inuse_ok q -> 8 <= cap q < 2 ^ 63 ->
  wrap (tail q - head q) >= wrap (z q + 1) ->
  plqu_add (Some junk) q v
  = plqu_add_store (Plqu (2 * cap q - 1) (a q ++ a q) (head q) (tail q)) v.
Proof.
  intros Hq Hc Hfull.
  destruct (inuse_ok_z q Hq) as [[H0 _] | [_ Hz]]; [lia |].
  unfold plqu_add, plqu_nuz.
  destruct (Z.geb_spec (wrap (tail q - head q)) (wrap (z q + 1))); [| lia].
  rewrite Hz. replace (cap q - 1 + 1) with (cap q) by lia.
  rewrite (wrap_small (cap q)) by (unfold size_ok; rewrite pow64; lia).
  rewrite (wrap_small (cap q * 2)) by (unfold size_ok; rewrite pow64; lia).
  destruct (Z.eqb_spec (cap q * 2) 0); [lia |].
  unfold cap in *.
  replace (Z.of_nat (length (a q)) * 2)
    with (Z.of_nat (length (a q) + length (a q))) by lia.
  rewrite realloc_block by lia.
  rewrite memcpy_clone.
  2:{ rewrite length_take, length_fmap, length_seq. lia. }
  simpl. rewrite wrap_small by (unfold size_ok; rewrite pow64; lia).
  do 3 f_equal. lia.
Qed.

(** There is no doubling a buffer of [2 ^ 63] elements: the new size
    wraps to 0, [PLQU_INIZ] elements are asked for, and the copy runs
    off that block. *)
Lemma plqu_add_grow_overflow junk q v :
  inuse_ok q -> cap q = 2 ^ 63 ->
  wrap (tail q - head q) >= wrap (z q + 1) ->
  plqu_add (Some junk) q v = None.
Proof.
  intros Hq Hc Hfull.
  destruct (inuse_ok_z q Hq) as [[H0 _] | [_ Hz]]; [lia |].
  unfold plqu_add, plqu_nuz.
  destruct (Z.geb_spec (wrap (tail q - head q)) (wrap (z q + 1))); [| lia].
  rewrite Hz, Hc.
  replace (wrap (2 ^ 63 - 1 + 1)) with (2 ^ 63) by reflexivity.
  change (wrap (2 ^ 63 * 2) =? 0) with true. cbv iota.
  unfold realloc, mbind, option_bind. cbv beta iota.
  rewrite memcpy_outside; [reflexivity |].
  rewrite length_take. change (Z.to_nat PLQU_INIZ) with 8%nat. lia.
Qed.

Lemma clone_lookup (old : list val) j :
  (0 < length old)%nat ->
  (old ++ old) !! Z.to_nat (j mod (2 * Z.of_nat (length old)))
  = old !! Z.to_nat (j mod Z.of_nat (length old)).
Proof.
  intros Hpos. set (c := Z.of_nat (length old)).
  assert (0 < c) as Hc by (subst c; lia).
  pose proof (Z.mod_pos_bound j (2 * c) ltac:(lia)) as Hr.
  rewrite <- (Z.mod_mod_divide j (2 * c) c) by (exists 2; lia).
  generalize dependent (j mod (2 * c)). intros r Hr.
  destruct (Z_lt_dec r c) as [Hlo | Hhi].
  - rewrite (Z.mod_small r c) by lia.
    apply lookup_app_l. subst c. lia.
  - rewrite lookup_app_r by (subst c; lia). f_equal.
    replace r with (r - c + 1 * c) at 2 by lia.
    rewrite Z.mod_add by lia. rewrite Z.mod_small by lia. subst c. lia.
Qed.

(** Two positions less than [c] apart have different slots. *)
Lemma slots_apart c s t :
  0 < c -> 0 < t - s < c -> s mod c <> t mod c.
Proof.
  intros Hc Hd Heq. symmetry in Heq. apply Z.cong_iff_0 in Heq.
  rewrite Z.mod_small in Heq by lia. lia.
Qed.

(** Storing at [tail] with room left keeps what the live ids hold. *)
Lemma plqu_add_store_ok q v :
  inuse_ok q -> size_ok (head q) -> size_ok (tail q) ->
  head q <= tail q -> tail q - head q < cap q ->
  exists q',
    plqu_add_store q v = Some (wrap (tail q + 1), q')
    /\ inuse_ok q' /\ cap q' = cap q /\ z q' = z q
    /\ head q' = head q /\ tail q' = wrap (tail q + 1)
    /\ a q' !! Z.to_nat (tail q mod cap q) = Some v
    /\ forall i, head q < i <= tail q ->
         a q' !! Z.to_nat ((i - 1) mod cap q)
         = a q !! Z.to_nat ((i - 1) mod cap q).
Proof.
  intros Hq Hh Ht Hle Hroom. assert (0 < cap q) as Hpos by lia.
  rewrite plqu_add_store_at by assumption.
  pose proof (Z.mod_pos_bound (tail q) (cap q) Hpos) as Hslot.
  eexists. split; [reflexivity |].
  assert (cap (Plqu (z q) (<[Z.to_nat (tail q mod cap q) := v]> (a q))
                    (head q) (wrap (tail q + 1))) = cap q) as Hcap.
  { unfold cap. simpl. now rewrite length_insert. }
  split.
  { destruct Hq as [Hc Hz]. split; rewrite Hcap; assumption. }
  split; [assumption |]. simpl. repeat split.
  - apply list_lookup_insert_eq. unfold cap in *. lia.
  - intros i Hi. apply list_lookup_insert_ne. intros Heq.
    apply Z2Nat.inj in Heq; try lia.
    + symmetry in Heq. revert Heq. apply slots_apart; lia.
    + apply Z.mod_pos_bound. lia.
Qed.

Lemma inuse_ok_first (buf : list val) h t :
  length buf = 8%nat -> inuse_ok (Plqu 7 buf h t).
Proof.
  intros Hlen. unfold inuse_ok, cap. simpl. rewrite Hlen. split.
  - right. exists 3. split; [lia | reflexivity].
  - reflexivity.
Qed.

Lemma inuse_ok_double q h t :
  inuse_ok q -> 8 <= cap q < 2 ^ 63 ->
  inuse_ok (Plqu (2 * cap q - 1) (a q ++ a q) h t).
Proof.
  intros [[H0 | (k & Hk & Hc)] _] Hr; [lia |].
  assert (k < 63) as Hk'.
  { apply (Z.pow_lt_mono_r_iff 2); lia. }
  assert (cap (Plqu (2 * cap q - 1) (a q ++ a q) h t) = 2 ^ (k + 1)) as Hcap.
  { unfold cap in *. simpl. rewrite length_app, Nat2Z.inj_add, Hc.
    rewrite Z.pow_add_r by lia. lia. }
  split; rewrite Hcap.
  - right. exists (k + 1). split; [lia | reflexivity].
  - simpl. rewrite Hc.
    replace (2 ^ (k + 1)) with (2 * 2 ^ k)
      by (rewrite Z.pow_add_r by lia; lia).
    symmetry. apply wrap_small. unfold size_ok. rewrite pow64. lia.
Qed.

(** C2: when [plqu_add] resizes the queue and [realloc] succeeds, the
    buffer has [PLQU_INIZ] elements if there was none and twice as many
    as before otherwise, [z] is that number less one, and every live id
    [i] of the queue as it was, be its slot before or after the slot of
    [head], is found at [(i - 1) mod] the new size with the value
    [plqu_get] gave for it before; [plqu_get] gives it afterwards. *)
Theorem plqu_add_growth_keeps_values junk q v id q' :
  plqu_ok q ->
  wrap (tail q - head q) >= wrap (z q + 1) ->
  plqu_add (Some junk) q v = Some (id, q') ->
  cap q' = (if cap q =? 0 then PLQU_INIZ else 2 * cap q)
  /\ z q' = cap q' - 1
  /\ forall i, head q < i <= tail q ->
       exists x,
         plqu_get q i = Some x
         /\ a q' !! Z.to_nat ((i - 1) mod cap q') = Some x
         /\ (tail q + 1 < 2 ^ size_bits -> plqu_get q' i = Some x).
Proof.
  intros Hq Hgrow Hadd.
  assert (tail q - head q = cap q) as Hfull.
  { apply plqu_add_full; [assumption |].
    destruct (Z.geb_spec (wrap (tail q - head q)) (wrap (z q + 1)));
      [reflexivity | lia]. }
  pose proof Hq as (Hz & Hh & Ht & Hle & Hw).
  pose proof Hz as [Hc _]. apply cap_ok_range in Hc as ([H0 | H8] & Hmax & _).
  - (* the first buffer *)
    rewrite plqu_add_grow_first in Hadd by assumption.
    destruct (plqu_add_store_ok (Plqu 7 (junk <$> seq 0 8) (head q) (tail q)) v)
      as (q1 & Hs & Hz1 & Hc1 & Hzz & _); simpl; try assumption.
    { now apply inuse_ok_first. }
    { unfold cap. simpl. lia. }
    rewrite Hs in Hadd. injection Hadd as _ <-.
    rewrite H0, Hc1, Hzz. simpl. repeat split. intros i Hi. lia.
  - destruct (Z.eq_dec (cap q) (2 ^ 63)) as [H63 | H63].
    { now rewrite plqu_add_grow_overflow in Hadd. }
    rewrite plqu_add_grow_double in Hadd by (try assumption; lia).
    set (q0 := Plqu (2 * cap q - 1) (a q ++ a q) (head q) (tail q)) in *.
    assert (cap q0 = 2 * cap q) as Hc0.
    { unfold cap. simpl. rewrite length_app. lia. }
    destruct (plqu_add_store_ok q0 v)
      as (q1 & Hs & Hz1 & Hc1 & Hzz & Hh1 & Ht1 & _ & Hkeep);
      simpl; try assumption; try lia.
    { apply inuse_ok_double; [assumption | lia]. }
    rewrite Hs in Hadd. injection Hadd as _ <-.
    destruct (Z.eqb_spec (cap q) 0); [lia |].
    rewrite Hc1, Hc0, Hzz. simpl. split; [reflexivity | split; [reflexivity |]].
    intros i Hi. destruct (plqu_get_live q i Hq Hi) as (x & Hg & Hl).
    assert (a q1 !! Z.to_nat ((i - 1) mod (2 * cap q)) = Some x) as Hnew.
    { rewrite <- Hc0, Hkeep by (simpl; lia). simpl. rewrite Hc0.
      unfold cap in *. rewrite clone_lookup by lia. assumption. }
    exists x. split; [assumption | split; [assumption |]].
    intros Hnowrap.
    assert (plqu_ok q1) as Hq1.
    { split; [assumption |]. rewrite Hh1, Ht1, Hc1, Hc0. simpl.
      rewrite wrap_small by (unfold size_ok in *; lia).
      unfold size_ok in *. lia. }
    destruct (plqu_get_live q1 i Hq1) as (x' & Hg' & Hl').
    { rewrite Hh1, Ht1. simpl.
      rewrite wrap_small by (unfold size_ok in *; lia). lia. }
    rewrite Hc1, Hc0, Hnew in Hl'. now injection Hl' as <-.
Qed.

(** ** Adding values *)

(** The store of [plqu_add], seen through [plqu_get]. *)
Lemma plqu_add_store_get q v :
  inuse_ok q -> size_ok (head q) -> size_ok (tail q) ->
  head q <= tail q -> tail q - head q < cap q ->
  tail q + 1 < 2 ^ size_bits ->
  exists q',
    plqu_add_store q v = Some (tail q + 1, q')
    /\ plqu_ok q' /\ cap q' = cap q
    /\ head q' = head q /\ tail q' = tail q + 1
    /\ plqu_get q' (tail q + 1) = Some v
    /\ forall i, head q < i <= tail q ->
         plqu_get q' i = a q !! Z.to_nat ((i - 1) mod cap q).
Proof.
  intros Hq Hh Ht Hle Hroom Hnowrap.
  destruct (plqu_add_store_ok q v)
    as (q' & Hs & Hq' & Hc & _ & Hh' & Ht' & Hv & Hkeep); try assumption.
  rewrite wrap_small in Hs, Ht' by (unfold size_ok in *; lia).
  assert (plqu_ok q') as Hok.
  { split; [assumption |]. rewrite Hh', Ht', Hc. unfold size_ok in *. lia. }
  exists q'. conjs; try assumption.
  - destruct (plqu_get_live q' (tail q + 1) Hok) as (x & Hg & Hl);
      [rewrite Hh', Ht'; lia |].
    replace (tail q + 1 - 1) with (tail q) in Hl by lia.
    rewrite Hc, Hv in Hl. now injection Hl as <-.
  - intros i Hi.
    destruct (plqu_get_live q' i Hok) as (x & Hg & Hl);
      [rewrite Hh', Ht'; lia |].
    rewrite Hc, Hkeep in Hl by assumption. now rewrite Hg, Hl.
Qed.

(** One [plqu_add] with memory at hand: the id is the new [tail], the
    value is there, and the live ids hold what they held. *)
Lemma plqu_add_ok junk q v :
  plqu_ok q -> tail q - head q < 2 ^ 63 -> tail q + 1 < 2 ^ size_bits ->
  exists q',
    plqu_add (Some junk) q v = Some (tail q + 1, q')
    /\ plqu_ok q'
    /\ head q' = head q /\ tail q' = tail q + 1
    /\ plqu_get q' (tail q + 1) = Some v
    /\ forall i, head q < i <= tail q -> plqu_get q' i = plqu_get q i.
Proof.
  intros Hq Hsmall Hnowrap. pose proof Hq as (Hz & Hh & Ht & Hle & Hw).
  destruct (wrap (tail q - head q) >=? wrap (z q + 1)) eqn:Hgrow.
  - pose proof (proj1 (plqu_add_full q Hq) Hgrow) as Hfull.
    assert (wrap (tail q - head q) >= wrap (z q + 1)) as Hge.
    { destruct (Z.geb_spec (wrap (tail q - head q)) (wrap (z q + 1)));
        [lia | discriminate]. }
    pose proof Hz as [Hc _]. apply cap_ok_range in Hc as ([H0 | H8] & _ & _).
    + rewrite plqu_add_grow_first by assumption.
      destruct (plqu_add_store_get
                  (Plqu 7 (junk <$> seq 0 8) (head q) (tail q)) v)
        as (q' & Hs & Hq' & _ & Hh' & Ht' & Hv & _); simpl; try assumption.
      { now apply inuse_ok_first. }
      { unfold cap. simpl. lia. }
      exists q'. conjs; try assumption. intros i Hi. lia.
    + rewrite plqu_add_grow_double by (try assumption; lia).
      destruct (plqu_add_store_get
                  (Plqu (2 * cap q - 1) (a q ++ a q) (head q) (tail q)) v)
        as (q' & Hs & Hq' & _ & Hh' & Ht' & Hv & Hkeep); simpl; try assumption.
      { apply inuse_ok_double; [assumption | lia]. }
      { unfold cap. simpl. rewrite length_app. unfold cap in *. lia. }
      exists q'. conjs; try assumption. intros i Hi.
      simpl in Hkeep. rewrite Hkeep by assumption.
      destruct (plqu_get_live q i Hq Hi) as (x & -> & <-).
      unfold cap in *. simpl. rewrite length_app, Nat2Z.inj_add.
      replace (Z.of_nat (length (a q)) + Z.of_nat (length (a q)))
        with (2 * Z.of_nat (length (a q))) by lia.
      apply clone_lookup. lia.
  - assert (tail q - head q < cap q) as Hroom.
    { destruct (Z_lt_dec (tail q - head q) (cap q)); [assumption |].
      assert (tail q - head q = cap q) as Hfull by lia.
      apply plqu_add_full in Hfull; [congruence | assumption]. }
    unfold plqu_add. rewrite Hgrow.
    destruct (plqu_add_store_get q v)
      as (q' & Hs & Hq' & _ & Hh' & Ht' & Hv & Hkeep); try assumption.
    exists q'. conjs; try assumption. intros i Hi.
    rewrite Hkeep by assumption.
    now destruct (plqu_get_live q i Hq Hi) as (x & -> & <-).
Qed.

Lemma plqu_add_all_ok xs : forall q,
  plqu_ok q -> tail q + Z.of_nat (length xs) <= 2 ^ 63 ->
  exists q',
    plqu_add_all q xs = Some (seqZ (tail q + 1) (Z.of_nat (length xs)), q')
    /\ plqu_ok q'
    /\ head q' = head q /\ tail q' = tail q + Z.of_nat (length xs)
    /\ (forall i, head q < i <= tail q -> plqu_get q' i = plqu_get q i)
    /\ forall (k : nat) v,
         xs.*2 !! k = Some v -> plqu_get q' (tail q + 1 + Z.of_nat k) = Some v.
Proof.
  induction xs as [| [junk v] xs IH]; intros q Hq Hlen.
  - exists q. simpl. rewrite Z.add_0_r.
    conjs; try assumption; try reflexivity. intros k v' Hk. discriminate.
  - pose proof Hq as (_ & Hh & Ht & Hle & _). simpl length in Hlen.
    destruct (plqu_add_ok junk q v Hq)
      as (q1 & Hadd & Hq1 & Hh1 & Ht1 & Hv1 & Hkeep1).
    { unfold size_ok in *. lia. }
    { rewrite pow64. lia. }
    destruct (IH q1 Hq1) as (q2 & Hall & Hq2 & Hh2 & Ht2 & Hkeep2 & Hvs);
      [lia |].
    exists q2. simpl plqu_add_all. rewrite Hadd. simpl. rewrite Hall. simpl.
    rewrite Ht1 in *. rewrite Hh1 in *. split.
    { rewrite (seqZ_cons (tail q + 1)) by lia.
      replace (Z.succ (tail q + 1)) with (tail q + 1 + 1) by lia.
      replace (Z.pred (Z.of_nat (S (length xs))))
        with (Z.of_nat (length xs)) by lia.
      reflexivity. }
    split; [assumption |]. split; [assumption |]. split; [lia |]. split.
    + intros i Hi. rewrite Hkeep2 by lia. apply Hkeep1. assumption.
    + intros [| k] v' Hk; simpl in Hk.
      * injection Hk as <-. rewrite Z.add_0_r, Hkeep2 by (unfold size_ok in *; lia).
        assumption.
      * replace (tail q + 1 + Z.of_nat (S k)) with (tail q + 1 + 1 + Z.of_nat k)
          by lia.
        now apply Hvs.
Qed.

(** C3: on a queue that has just been acquired ([head = tail = 0]),
    with memory for every resize, adding [N] values in a row returns
    the ids 1, 2, ..., [N] (each the new [tail]), and afterwards
    [plqu_get] at [k] gives the [k]-th value added, for every [k] from
    1 to [N].  A buffer holds [2 ^ 63] elements at most, which bounds
    [N]. *)
Theorem plqu_add_all_fresh q (xs : list ((nat -> val) * val)) :
  inuse_ok q -> head q = 0 -> tail q = 0 ->
  Z.of_nat (length xs) <= 2 ^ 63 ->
  exists q',
    plqu_add_all q xs = Some (seqZ 1 (Z.of_nat (length xs)), q')
    /\ head q' = 0 /\ tail q' = Z.of_nat (length xs)
    /\ forall (k : nat) v,
         xs.*2 !! k = Some v -> plqu_get q' (Z.of_nat k + 1) = Some v.
Proof.
  intros Hz Hh Ht Hlen.
  assert (plqu_ok q) as Hq.
  { split; [assumption |]. rewrite Hh, Ht. unfold size_ok. rewrite pow64.
    destruct Hz as [Hc _]. apply cap_ok_range in Hc. lia. }
  destruct (plqu_add_all_ok xs q Hq) as (q' & Hall & _ & Hh' & Ht' & _ & Hvs);
    [lia |].
  rewrite Ht in *. rewrite Hh in *. exists q'. simpl in *.
  conjs; try assumption.
  intros k v Hk. replace (Z.of_nat k + 1) with (1 + Z.of_nat k) by lia.
  now apply Hvs.
Qed.

(** ** The pool and its slots *)

Lemma inuse_ok_same q q' :
  z q' = z q -> length (a q') = length (a q) -> inuse_ok q -> inuse_ok q'.
Proof. unfold inuse_ok, cap. intros -> ->. intros Hq. exact Hq. Qed.

Lemma slot_ok_in_use q : slot_ok q -> in_use q -> inuse_ok q.
Proof.
  intros [Hf | Hu] Hin; [| assumption]. now apply free_not_in_use in Hf.
Qed.

Lemma slot_ok_free q : slot_ok q -> ~ in_use q -> free_ok q.
Proof.
  intros [Hf | Hu] Hin; [assumption |]. now apply inuse_in_use in Hu.
Qed.

Lemma free_plqu_free_ok q : inuse_ok q -> free_ok (free_plqu q).
Proof.
  intros Hq. pose proof Hq as [Hc _]. unfold free_ok, free_plqu, cap. simpl.
  conjs; try assumption; try reflexivity. fold (cap q).
  destruct (inuse_ok_z q Hq) as [[-> ->] | [H8 ->]]; [reflexivity |].
  apply cap_ok_range in Hc. replace (cap q - 1 + 1) with (cap q) by lia.
  apply wrap_small. unfold size_ok. rewrite pow64. lia.
Qed.

Lemma mark_in_use_ok q :
  free_ok q -> inuse_ok (Plqu (wrap (z q - 1)) (a q) (head q) (tail q)).
Proof.
  intros (Hc & Hz & _). unfold inuse_ok, cap in *. simpl.
  split; [assumption | now rewrite Hz].
Qed.

Lemma plqu_put_inuse q i v r q' :
  inuse_ok q -> plqu_put q i v = Some (r, q') -> inuse_ok q'.
Proof.
  intros Hq. unfold plqu_put. destruct (negb _).
  - now intros [= _ <-].
  - destruct (array_set (a q) _ v) as [buf |] eqn:Hset; [| discriminate].
    intros [= _ <-]. apply (inuse_ok_same q); [reflexivity | | assumption].
    simpl. now apply array_set_length in Hset.
Qed.

Lemma plqu_add_store_inuse q v r q' :
  inuse_ok q -> plqu_add_store q v = Some (r, q') -> inuse_ok q'.
Proof.
  intros Hq. unfold plqu_add_store.
  destruct (array_set (a q) _ v) as [buf |] eqn:Hset; [| discriminate].
  intros [= _ <-]. apply (inuse_ok_same q); [reflexivity | | assumption].
  simpl. now apply array_set_length in Hset.
Qed.

Lemma plqu_add_inuse r q v id q' :
  inuse_ok q -> plqu_add r q v = Some (id, q') -> inuse_ok q'.
Proof.
  intros Hq Hadd.
  destruct (wrap (tail q - head q) >=? wrap (z q + 1)) eqn:Hgrow.
  2:{ unfold plqu_add in Hadd. rewrite Hgrow in Hadd.
      now apply plqu_add_store_inuse in Hadd. }
  assert (wrap (tail q - head q) >= wrap (z q + 1)) as Hge.
  { destruct (Z.geb_spec (wrap (tail q - head q)) (wrap (z q + 1)));
      [lia | discriminate]. }
  destruct r as [junk |].
  2:{ unfold plqu_add in Hadd. rewrite Hgrow in Hadd. simpl in Hadd.
      now injection Hadd as _ <-. }
  pose proof Hq as [Hc _]. apply cap_ok_range in Hc as ([H0 | H8] & Hmax & _).
  - rewrite plqu_add_grow_first in Hadd by assumption.
    apply plqu_add_store_inuse in Hadd; [assumption |].
    now apply inuse_ok_first.
  - destruct (Z.eq_dec (cap q) (2 ^ 63)) as [H63 | H63].
    { now rewrite plqu_add_grow_overflow in Hadd. }
    rewrite plqu_add_grow_double in Hadd by (try assumption; lia).
    apply plqu_add_store_inuse in Hadd; [assumption |].
    apply inuse_ok_double; [assumption | lia].
Qed.

Lemma plqu_pop_inuse q r q' :
  inuse_ok q -> plqu_pop q = Some (r, q') -> inuse_ok q'.
Proof.
  intros Hq. unfold plqu_pop. destruct (head q <? tail q).
  - destruct (array_get _ _); [| discriminate]. simpl.
    intros [= _ <-]. now apply (inuse_ok_same q).
  - now intros [= _ <-].
Qed.

(** Where [_next_free] stops. *)
Lemma _next_free_from_stop slots : forall i,
  (i <= _next_free_from slots i)%nat
  /\ (forall j q, slots !! j = Some q -> ~ in_use q ->
        (_next_free_from slots i <= i + j)%nat)
  /\ (forall q, slots !! (_next_free_from slots i - i)%nat = Some q ->
        ~ in_use q).
Proof.
  induction slots as [| q0 slots IH]; intros i; simpl.
  - conjs; [lia | intros j q Hj; discriminate | intros q Hq; discriminate].
  - destruct (Z.eqb_spec (Z.land (z q0) 1) 0) as [Hfree | Hused]; simpl.
    + conjs; [lia | intros; lia |].
      intros q. rewrite Nat.sub_diag. simpl. intros [= <-]. unfold in_use. intros Hne. now apply Hne.
    + destruct (IH (S i)) as (Hle & Hfirst & Hstop). conjs.
      * lia.
      * intros [| j] q Hj Hq; simpl in Hj.
        -- injection Hj as <-. now unfold in_use in Hq.
        -- specialize (Hfirst j q Hj Hq). lia.
      * intros q.
        replace (_next_free_from slots (S i) - i)%nat
          with (S (_next_free_from slots (S i) - S i)) by lia.
        simpl. apply Hstop.
Qed.

Lemma pool_ok_insert pool h q :
  pool_ok pool -> slot_ok q -> pool_ok (<[h := q]> pool).
Proof.
  intros [Hlen Hall] Hq. split.
  - now rewrite length_insert.
  - apply Forall_insert; assumption.
Qed.

Lemma pool_ok_lookup pool h q : pool_ok pool -> pool !! h = Some q -> slot_ok q.
Proof.
  intros [_ Hall] Hl. rewrite Forall_lookup in Hall. now apply (Hall h).
Qed.

Lemma pool_ok_init : pool_ok _pool.
Proof.
  split; [apply length_replicate |]. apply Forall_replicate.
  left. unfold free_ok, cap. simpl. conjs; try reflexivity. now left.
Qed.

(** [make_plqu] takes a free slot, which holds no elements. *)
Lemma make_plqu_ok pool h pool' :
  pool_ok pool -> make_plqu pool = Some (h, pool') ->
  exists q0,
    pool !! h = Some q0 /\ free_ok q0
    /\ pool' = <[h := Plqu (wrap (z q0 - 1)) (a q0) 0 0]> pool
    /\ pool_ok pool'.
Proof.
  intros Hpool. unfold make_plqu.
  destruct (pool !! _next_free pool) as [q0 |] eqn:Hl; [| discriminate].
  simpl. intros [= <- <-].
  destruct (_next_free_from_stop pool 0) as (_ & _ & Hstop).
  assert (free_ok q0) as Hfree.
  { apply slot_ok_free; [now apply (pool_ok_lookup pool (_next_free pool)) |].
    apply Hstop. now rewrite Nat.sub_0_r. }
  exists q0. pose proof Hfree as (_ & _ & -> & ->).
  conjs; try assumption; try reflexivity.
  apply pool_ok_insert; [assumption |]. right.
  pose proof (mark_in_use_ok q0 Hfree) as Hu.
  now apply (inuse_ok_same _ _ eq_refl eq_refl) in Hu.
Qed.

Lemma at_handle_ok {A} pool h (f : plqu_s -> option (A * plqu_s)) r pool' :
  pool_ok pool ->
  (forall q q', pool !! h = Some q -> f q = Some (r, q') -> slot_ok q') ->
  at_handle pool h f = Some (r, pool') -> pool_ok pool'.
Proof.
  intros Hpool Hf. unfold at_handle.
  destruct (pool !! h) as [q |] eqn:Hl; [| discriminate]. simpl.
  destruct (f q) as [[r' q'] |] eqn:Hfq; [| discriminate]. simpl.
  intros [= -> <-]. apply pool_ok_insert; [assumption |]. now apply (Hf q).
Qed.

(** Every call allowed to the owner keeps the pool well formed. *)
Lemma run_pool_ok pool c pool' :
  pool_ok pool -> allowed pool c -> run pool c = Some pool' -> pool_ok pool'.
Proof.
  intros Hpool Hallowed Hrun.
  assert (forall h q, call_handle c = Some h -> pool !! h = Some q ->
                      inuse_ok q) as Hin.
  { intros h q Hc Hl. destruct (Hallowed h Hc) as (q1 & Hl1 & Hu).
    rewrite Hl in Hl1. injection Hl1 as <-.
    apply slot_ok_in_use; [now apply (pool_ok_lookup pool h) | assumption]. }
  clear Hallowed. destruct c; simpl in Hrun, Hin.
  - destruct (make_plqu pool) as [[h p1] |] eqn:Hm; [| discriminate].
    injection Hrun as <-. now destruct (make_plqu_ok _ _ _ Hpool Hm) as (? & ? & ? & ? & ?).
  - destruct (at_handle pool h _) as [[r p1] |] eqn:Hat; [| discriminate].
    injection Hrun as <-. apply (at_handle_ok _ _ _ _ _ Hpool) in Hat; [assumption |].
    intros q q' Hl Heq. assert (q' = free_plqu q) as -> by congruence.
    left. apply free_plqu_free_ok. now apply (Hin h).
  - destruct (pool !! h); [| discriminate]. simpl in Hrun.
    destruct (plqu_get _ _); [| discriminate]. now injection Hrun as <-.
  - destruct (at_handle pool h _) as [[r p1] |] eqn:Hat; [| discriminate].
    injection Hrun as <-. apply (at_handle_ok _ _ _ _ _ Hpool) in Hat; [assumption |].
    intros q q' Hl Hput. right. apply (plqu_put_inuse q i v r q'); [| assumption].
    now apply (Hin h).
  - destruct (at_handle pool h _) as [[id p1] |] eqn:Hat; [| discriminate].
    injection Hrun as <-. apply (at_handle_ok _ _ _ _ _ Hpool) in Hat; [assumption |].
    intros q q' Hl Hadd. right. apply (plqu_add_inuse r q v id q'); [| assumption].
    now apply (Hin h).
  - destruct (pool !! h); [| discriminate]. simpl in Hrun.
    destruct (plqu_top _); [| discriminate]. now injection Hrun as <-.
  - destruct (at_handle pool h _) as [[r p1] |] eqn:Hat; [| discriminate].
    injection Hrun as <-. apply (at_handle_ok _ _ _ _ _ Hpool) in Hat; [assumption |].
    intros q q' Hl Hpop. right. apply (plqu_pop_inuse q r q'); [| assumption].
    now apply (Hin h).
  - unfold plqu_iter_next in Hrun. destruct (iter_q iter) as [h |].
    + destruct (pool !! h); [| discriminate]. simpl in Hrun.
      destruct (plqu_iter_scan _ _ _) as [[found iter'] |]; [| discriminate].
      now injection Hrun as <-.
    + now injection Hrun as <-.
  - destruct (plqu_iter_qid pool iter); [| discriminate]. now injection Hrun as <-.
  - unfold plqu_iter_put in Hrun. destruct (iter_q iter) as [h |].
    + destruct (pool !! h) as [q |] eqn:Hl; [| discriminate]. simpl in Hrun.
      destruct (_ || _); [now injection Hrun as <- |].
      destruct (at_handle pool h _) as [[r p1] |] eqn:Hat; [| discriminate].
      injection Hrun as <-. apply (at_handle_ok _ _ _ _ _ Hpool) in Hat; [assumption |].
      intros q1 q' Hl1 Hput. right.
      apply (plqu_put_inuse q1 (iter_i iter) v r q'); [| assumption].
      now apply (Hin h).
    + now injection Hrun as <-.
  - unfold plqu_iter_set_top in Hrun. destruct (iter_q iter) as [h |].
    + destruct (iter_i iter =? 0); [now injection Hrun as <- |].
      destruct (at_handle pool h _) as [[r p1] |] eqn:Hat; [| discriminate].
      injection Hrun as <-. apply (at_handle_ok _ _ _ _ _ Hpool) in Hat; [assumption |].
      intros q q' Hl Heq.
      assert (q' = Plqu (z q) (a q) (wrap (iter_i iter - 1)) (tail q)) as ->
        by congruence.
      right. apply (inuse_ok_same q); try reflexivity. now apply (Hin h).
    + now injection Hrun as <-.
Qed.

Lemma reachable_pool_ok pool : reachable pool -> pool_ok pool.
Proof.
  induction 1 as [| pool c pool' _ IH Hallowed Hrun].
  - apply pool_ok_init.
  - now apply (run_pool_ok pool c).
Qed.

(** C8, as the code has it: in every pool the owner can get to, a slot
    in use has [z] equal to the size of its buffer less one, as a
    [size_t], where the size is 0 (no buffer yet: [z] is [2 ^ 64 - 1])
    or a power of two from [PLQU_INIZ = 2 ^ 3] to [2 ^ 63]; every call
    with a defined result keeps it so, [reachable] being closed under
    all of them. *)
Theorem reachable_in_use_capacity pool h q :
  reachable pool -> pool !! h = Some q -> in_use q ->
  z q = wrap (cap q - 1)
  /\ (cap q = 0 \/ exists k, 3 <= k <= 63 /\ cap q = 2 ^ k).
Proof.
  intros Hreach Hl Hu. apply reachable_pool_ok in Hreach.
  pose proof (pool_ok_lookup pool h q Hreach Hl) as Hslot.
  destruct (slot_ok_in_use q Hslot Hu) as [Hc Hz]. split; assumption.
Qed.

(** C9: in a pool the owner can get to, [free_plqu] on a handle in use
    followed by [make_plqu] gives a handle in use to an empty queue:
    [head = tail = 0] and [plqu_get] gives nil for every id; the slot
    taken was free and its buffer is kept as it was, whatever its
    size. *)
Theorem free_plqu_make_plqu_empty pool h q :
  reachable pool -> pool !! h = Some q -> in_use q ->
  exists h' pool' q0 q',
    make_plqu (<[h := free_plqu q]> pool) = Some (h', pool')
    /\ <[h := free_plqu q]> pool !! h' = Some q0 /\ ~ in_use q0
    /\ pool' !! h' = Some q' /\ in_use q'
    /\ a q' = a q0
    /\ head q' = 0 /\ tail q' = 0
    /\ forall i, plqu_get q' i = Some plqu_val_nil.
Proof.
  intros Hreach Hl Hu. apply reachable_pool_ok in Hreach.
  pose proof (pool_ok_lookup pool h q Hreach Hl) as Hslot.
  pose proof (slot_ok_in_use q Hslot Hu) as Hq.
  set (pool1 := <[h := free_plqu q]> pool).
  assert (pool_ok pool1) as Hpool1.
  { apply pool_ok_insert; [assumption |]. left. now apply free_plqu_free_ok. }
  assert (pool1 !! h = Some (free_plqu q)) as Hl1.
  { apply list_lookup_insert_eq. now apply lookup_lt_Some in Hl. }
  destruct (_next_free_from_stop pool1 0) as (_ & Hfirst & _).
  specialize (Hfirst h (free_plqu q) Hl1
                (free_not_in_use _ (free_plqu_free_ok q Hq))).
  destruct (lookup_lt_is_Some_2 pool1 (_next_free pool1)) as [q0 Hl0].
  { apply lookup_lt_Some in Hl1. unfold _next_free. lia. }
  destruct (make_plqu pool1) as [[h' pool'] |] eqn:Hmake.
  2:{ unfold make_plqu in Hmake. now rewrite Hl0 in Hmake. }
  destruct (make_plqu_ok pool1 h' pool' Hpool1 Hmake)
    as (q1 & Hlq1 & Hfree & -> & Hpool').
  exists h', (<[h' := Plqu (wrap (z q1 - 1)) (a q1) 0 0]> pool1), q1,
    (Plqu (wrap (z q1 - 1)) (a q1) 0 0).
  conjs; try reflexivity; try assumption.
  - now apply free_not_in_use.
  - apply list_lookup_insert_eq. now apply lookup_lt_Some in Hlq1.
  - apply inuse_in_use. pose proof (mark_in_use_ok q1 Hfree) as Hm.
    now apply (inuse_ok_same _ _ eq_refl eq_refl) in Hm.
  - intros i. apply plqu_get_out. simpl. lia.
Qed.

(** * Further properties of the queue *)

(** ** Overwriting and reading *)

Lemma plqu_get_window q q' :
  z q' = z q -> a q' = a q -> tail q' = tail q ->
  forall j, head q < j -> head q' < j -> plqu_get q' j = plqu_get q j.
Proof.
  intros Hz Ha Ht j Hj Hj'. unfold plqu_get. rewrite Hz, Ha, Ht.
  destruct (Z.ltb_spec (head q) j), (Z.ltb_spec (head q') j); try lia.
  reflexivity.
Qed.

(** Two live ids of a well-formed queue have different slots. *)
Lemma live_slots_apart q i j :
  plqu_ok q -> head q < i <= tail q -> head q < j <= tail q -> i <> j ->
  Z.to_nat ((i - 1) mod cap q) <> Z.to_nat ((j - 1) mod cap q).
Proof.
  intros Hq Hi Hj Hne Heq.
  pose proof (plqu_ok_cap_pos q Hq ltac:(lia)) as Hpos.
  destruct Hq as (_ & _ & _ & _ & Hw).
  apply Z2Nat.inj in Heq; try (apply Z.mod_pos_bound; lia).
  destruct (Z_lt_dec i j).
  - revert Heq. apply slots_apart; lia.
  - symmetry in Heq. revert Heq. apply slots_apart; lia.
Qed.

Lemma plqu_put_live q i v :
  plqu_ok q -> head q < i <= tail q ->
  exists q',
    plqu_put q i v = Some (0, q')
    /\ plqu_ok q' /\ z q' = z q /\ cap q' = cap q
    /\ head q' = head q /\ tail q' = tail q
    /\ plqu_get q' i = Some v
    /\ forall j, j <> i -> plqu_get q' j = plqu_get q j.
Proof.
  intros Hq Hi. pose proof (plqu_ok_cap_pos q Hq ltac:(lia)) as Hpos.
  pose proof Hq as (Hz & Hh & Ht & Hle & Hw). unfold plqu_put.
  destruct (Z.ltb_spec (head q) i), (Z.leb_spec i (tail q)); try lia. simpl.
  rewrite wrap_small by (unfold size_ok in *; lia).
  rewrite array_set_insert by now apply inuse_slot_lt.
  rewrite inuse_mask by assumption. simpl.
  set (q' := Plqu (z q) (<[Z.to_nat ((i - 1) mod cap q) := v]> (a q))
                  (head q) (tail q)).
  assert (cap q' = cap q) as Hc.
  { unfold cap. simpl. now rewrite length_insert. }
  assert (plqu_ok q') as Hq'.
  { split; [| rewrite Hc; simpl; conjs; assumption].
    apply (inuse_ok_same q); [reflexivity | | assumption].
    simpl. apply length_insert. }
  exists q'. conjs; try reflexivity; try assumption.
  - destruct (plqu_get_live q' i Hq' Hi) as (x & Hg & Hl).
    rewrite Hc in Hl. simpl in Hl. rewrite list_lookup_insert_eq in Hl.
    + now rewrite Hg, Hl.
    + pose proof (Z.mod_pos_bound (i - 1) (cap q) Hpos). unfold cap in *. lia.
  - intros j Hne.
    destruct (Z_lt_dec (head q) j) as [Hlo |];
      [destruct (Z_le_dec j (tail q)) as [Hhi |] |].
    + destruct (plqu_get_live q' j Hq') as (x & Hg & Hl); [simpl; lia |].
      destruct (plqu_get_live q j Hq) as (y & Hg0 & Hl0); [lia |].
      rewrite Hc in Hl. simpl in Hl. rewrite list_lookup_insert_ne in Hl.
      * rewrite Hg, Hg0. congruence.
      * apply live_slots_apart; try assumption; lia.
    + rewrite !plqu_get_out; simpl; try reflexivity; lia.
    + rewrite !plqu_get_out; simpl; try reflexivity; lia.
Qed.

(** X1: in a well-formed queue, [plqu_put] at a live id returns 0, and
    afterwards [plqu_get] gives the new value at that id and what it
    gave before at every other id; [z], [head], [tail] and the size of
    the buffer stay.  Outside [(head, tail]] it returns -1 and the
    queue is as it was. *)
Theorem plqu_put_get q i v :
  plqu_ok q ->
  (head q < i <= tail q ->
   exists q',
     plqu_put q i v = Some (0, q')
     /\ z q' = z q /\ cap q' = cap q /\ head q' = head q /\ tail q' = tail q
     /\ plqu_get q' i = Some v
     /\ forall j, j <> i -> plqu_get q' j = plqu_get q j)
  /\ (~ (head q < i <= tail q) ->
      plqu_put q i v = Some (-1, q) /\ plqu_get q i = Some plqu_val_nil).
Proof.
  intros Hq. split.
  - intros Hi.
    destruct (plqu_put_live q i v Hq Hi)
      as (q' & Hp & _ & Hz & Hc & Hh & Ht & Hg & Hkeep).
    exists q'. conjs; assumption.
  - intros Hi. split; [| now apply plqu_get_out]. unfold plqu_put.
    destruct (Z.ltb_spec (head q) i), (Z.leb_spec i (tail q)); try lia;
      reflexivity.
Qed.

(** ** The front *)

(** X2: [plqu_top] is [plqu_get] at id [head + 1] (nil when the queue
    is empty), it is what [plqu_pop] returns, and [plqu_pop] changes
    nothing but [head]. *)
Theorem plqu_top_get_pop q :
  size_ok (head q) ->
  plqu_top q = plqu_get q (head q + 1)
  /\ fst <$> plqu_pop q = plqu_top q
  /\ forall x q', plqu_pop q = Some (x, q') ->
       z q' = z q /\ a q' = a q /\ tail q' = tail q
       /\ head q' = (if head q <? tail q then wrap (head q + 1) else head q).
Proof.
  intros Hh. unfold plqu_top, plqu_pop, plqu_get. conjs.
  - destruct (Z.ltb_spec (head q) (tail q)).
    + destruct (Z.ltb_spec (head q) (head q + 1)); [| lia].
      destruct (Z.leb_spec (head q + 1) (tail q)); [| lia]. simpl.
      replace (head q + 1 - 1) with (head q) by lia.
      now rewrite wrap_small.
    + destruct (Z.leb_spec (head q + 1) (tail q)); [lia |].
      now rewrite andb_false_r.
  - destruct (head q <? tail q); [| reflexivity].
    now destruct (array_get _ _).
  - intros x q'. destruct (head q <? tail q).
    + destruct (array_get _ _); [| discriminate]. simpl.
      intros [= _ <-]. simpl. conjs; reflexivity.
    + intros [= _ <-]. conjs; reflexivity.
Qed.

Lemma plqu_pop_step q :
  plqu_ok q -> head q < tail q ->
  exists x,
    plqu_get q (head q + 1) = Some x
    /\ plqu_pop q = Some (x, Plqu (z q) (a q) (head q + 1) (tail q))
    /\ plqu_ok (Plqu (z q) (a q) (head q + 1) (tail q))
    /\ forall j, head q + 1 < j ->
         plqu_get (Plqu (z q) (a q) (head q + 1) (tail q)) j = plqu_get q j.
Proof.
  intros Hq Hlt. pose proof (plqu_ok_cap_pos q Hq Hlt) as Hpos.
  destruct (plqu_get_live q (head q + 1) Hq ltac:(lia)) as (x & Hg & Hl).
  pose proof Hq as (Hz & Hh & Ht & Hle & Hw).
  exists x. conjs.
  - assumption.
  - unfold plqu_pop. destruct (Z.ltb_spec (head q) (tail q)); [| lia].
    destruct (array_get_lookup (a q) (Z.land (head q) (z q))) as (y & Hy & Hly).
    { now apply inuse_slot_lt. }
    rewrite Hy. simpl. rewrite inuse_mask in Hly by assumption.
    replace (head q + 1 - 1) with (head q) in Hl by lia.
    rewrite Hl in Hly. injection Hly as <-.
    now rewrite (wrap_small (head q + 1)) by (unfold size_ok in *; lia).
  - split; [now apply (inuse_ok_same q) |]. simpl.
    unfold cap in *. simpl. unfold size_ok in *. lia.
  - intros j Hj. apply plqu_get_window; simpl; try reflexivity; lia.
Qed.

Lemma plqu_pop_all_ok vs : forall q,
  plqu_ok q -> tail q - head q = Z.of_nat (length vs) ->
  (forall (k : nat) v, vs !! k = Some v ->
     plqu_get q (head q + 1 + Z.of_nat k) = Some v) ->
  exists q',
    plqu_pop_all (length vs) q = Some (vs, q')
    /\ plqu_ok q' /\ head q' = tail q /\ tail q' = tail q.
Proof.
  induction vs as [| v vs IH]; intros q Hq Hlen Hvs; simpl in *.
  - exists q. conjs; try reflexivity; try assumption. lia.
  - destruct (plqu_pop_step q Hq ltac:(lia)) as (x & Hg & Hp & Hq1 & Hkeep).
    specialize (Hvs 0%nat v eq_refl) as Hv. rewrite Z.add_0_r, Hg in Hv.
    injection Hv as ->. rewrite Hp. simpl.
    destruct (IH _ Hq1) as (q' & Hall & Hq' & Hh' & Ht'); simpl.
    + lia.
    + intros k w Hk. rewrite Hkeep by lia.
      replace (head q + 1 + 1 + Z.of_nat k)
        with (head q + 1 + Z.of_nat (S k)) by lia.
      now apply Hvs.
    + rewrite Hall. simpl. exists q'. conjs; try assumption; reflexivity.
Qed.

(** X3: first in, first out.  On an empty well-formed queue, with
    memory for every resize, adding values one after the other and
    then popping as many gives the values back in the order they went
    in and leaves the queue empty: one more [plqu_pop] gives nil. *)
Theorem plqu_add_all_pop_all q (xs : list ((nat -> val) * val)) :
  plqu_ok q -> head q = tail q ->
  tail q + Z.of_nat (length xs) <= 2 ^ 63 ->
  exists ids q1 q2,
    plqu_add_all q xs = Some (ids, q1)
    /\ plqu_pop_all (length xs) q1 = Some (xs.*2, q2)
    /\ head q2 = tail q2
    /\ plqu_pop q2 = Some (plqu_val_nil, q2).
Proof.
  intros Hq Hempty Hlen.
  destruct (plqu_add_all_ok xs q Hq Hlen)
    as (q1 & Hadd & Hq1 & Hh1 & Ht1 & _ & Hvs).
  destruct (plqu_pop_all_ok (xs.*2) q1 Hq1) as (q2 & Hpop & _ & Hh2 & Ht2).
  - rewrite length_fmap. lia.
  - intros k v Hk. rewrite Hh1, Hempty. now apply Hvs.
  - rewrite length_fmap in Hpop.
    exists (seqZ (tail q + 1) (Z.of_nat (length xs))), q1, q2.
    conjs; try assumption; [congruence |].
    unfold plqu_pop. destruct (Z.ltb_spec (head q2) (tail q2)); [lia |].
    reflexivity.
Qed.

(** X4: the operations keep a queue well formed: [plqu_put] and
    [plqu_pop] always, [plqu_add] as long as the counters and the size
    of the buffer do not run out of their 64 bits, and making an id
    from [head + 1] to [tail + 1] the front as [plqu_iter_set_top]
    does. *)
Theorem plqu_ok_kept q :
  plqu_ok q ->
  (forall i v r q', plqu_put q i v = Some (r, q') -> plqu_ok q')
  /\ (forall x q', plqu_pop q = Some (x, q') -> plqu_ok q')
  /\ (forall r v id q',
        tail q + 1 < 2 ^ size_bits -> tail q - head q < 2 ^ 63 ->
        plqu_add r q v = Some (id, q') -> plqu_ok q')
  /\ (forall i, head q < i <= tail q + 1 ->
        plqu_ok (Plqu (z q) (a q) (wrap (i - 1)) (tail q))).
Proof.
  intros Hq. pose proof Hq as (Hz & Hh & Ht & Hle & Hw). conjs.
  - intros i v r q' Hp.
    destruct (Z_lt_dec (head q) i) as [Hlo |];
      [destruct (Z_le_dec i (tail q)) as [Hhi |] |].
    + destruct (plqu_put_live q i v Hq ltac:(lia)) as (q1 & Hp1 & Hq1 & _).
      congruence.
    + unfold plqu_put in Hp.
      destruct (Z.leb_spec i (tail q)); [lia |].
      rewrite andb_false_r in Hp. simpl in Hp. congruence.
    + unfold plqu_put in Hp.
      destruct (Z.ltb_spec (head q) i); [lia |]. simpl in Hp. congruence.
  - intros x q' Hp. destruct (Z_lt_dec (head q) (tail q)) as [Hlt | Hge].
    + destruct (plqu_pop_step q Hq Hlt) as (y & _ & Hp1 & Hq1 & _). congruence.
    + unfold plqu_pop in Hp.
      destruct (Z.ltb_spec (head q) (tail q)); [lia |]. congruence.
  - intros r v id q' Hnowrap Hsmall Hadd.
    destruct (wrap (tail q - head q) >=? wrap (z q + 1)) eqn:Hgrow.
    + destruct r as [junk |].
      * destruct (plqu_add_ok junk q v Hq Hsmall Hnowrap) as (q1 & Ha1 & Hq1 & _).
        congruence.
      * unfold plqu_add in Hadd. rewrite Hgrow in Hadd. simpl in Hadd.
        congruence.
    + destruct (plqu_add_ok (fun _ => v) q v Hq Hsmall Hnowrap)
        as (q1 & Ha1 & Hq1 & _).
      unfold plqu_add in Hadd, Ha1. rewrite Hgrow in Hadd, Ha1. congruence.
  - intros i Hi. rewrite wrap_small by (unfold size_ok in *; lia).
    split; [now apply (inuse_ok_same q) |]. simpl.
    unfold cap in *. simpl. unfold size_ok in *. lia.
Qed.

(** ** Taking and giving back slots *)

Lemma in_use_dec q : in_use q \/ ~ in_use q.
Proof.
  unfold in_use. destruct (Z.eq_dec (Z.land (z q) 1) 0) as [-> | Hne].
  - right. intros Hne. now apply Hne.
  - now left.
Qed.

Lemma make_plqu_all_in_use (pool : list plqu_s) :
  Forall in_use pool -> make_plqu pool = None.
Proof.
  intros Hall. unfold make_plqu, _next_free.
  rewrite _next_free_from_in_use by assumption.
  now rewrite (lookup_ge_None_2 pool (0 + length pool)) by lia.
Qed.

(** X5: with a free slot in the pool, [make_plqu] takes the free slot
    of the least index: every slot before it is in use, the slot
    itself was free and is in use afterwards, with an empty queue and
    the buffer it had, and no other slot is touched. *)
Theorem make_plqu_first_free pool j qj :
  reachable pool -> pool !! j = Some qj -> ~ in_use qj ->
  exists h pool' q0 q',
    make_plqu pool = Some (h, pool')
    /\ (h <= j)%nat
    /\ (forall i q, (i < h)%nat -> pool !! i = Some q -> in_use q)
    /\ pool !! h = Some q0 /\ ~ in_use q0
    /\ pool' !! h = Some q' /\ in_use q'
    /\ a q' = a q0 /\ head q' = 0 /\ tail q' = 0
    /\ forall i, i <> h -> pool' !! i = pool !! i.
Proof.
  intros Hreach Hj Hfree. apply reachable_pool_ok in Hreach.
  destruct (_next_free_from_stop pool 0) as (_ & Hfirst & _).
  pose proof (Hfirst j qj Hj Hfree) as Hle.
  destruct (lookup_lt_is_Some_2 pool (_next_free pool)) as [q0 Hl0].
  { apply lookup_lt_Some in Hj. unfold _next_free. lia. }
  destruct (make_plqu pool) as [[h pool'] |] eqn:Hmake.
  2:{ unfold make_plqu in Hmake. now rewrite Hl0 in Hmake. }
  assert (h = _next_free pool) as Hh.
  { unfold make_plqu in Hmake. rewrite Hl0 in Hmake. simpl in Hmake. congruence. }
  destruct (make_plqu_ok pool h pool' Hreach Hmake)
    as (q1 & Hlq1 & Hfree1 & -> & Hpool').
  exists h, (<[h := Plqu (wrap (z q1 - 1)) (a q1) 0 0]> pool), q1,
    (Plqu (wrap (z q1 - 1)) (a q1) 0 0).
  conjs; try reflexivity; try assumption.
  - subst h. unfold _next_free. lia.
  - intros i q Hi Hl. destruct (in_use_dec q) as [Hu | Hnu]; [assumption |].
    specialize (Hfirst i q Hl Hnu). subst h. unfold _next_free in Hi. lia.
  - now apply free_not_in_use.
  - apply list_lookup_insert_eq. now apply lookup_lt_Some in Hlq1.
  - apply inuse_in_use. pose proof (mark_in_use_ok q1 Hfree1) as Hm.
    now apply (inuse_ok_same _ _ eq_refl eq_refl) in Hm.
  - intros i Hi. apply list_lookup_insert_ne. congruence.
Qed.

(** X6: when every slot of the pool is in use, giving one handle back
    makes the next [make_plqu] return that very handle, with its [z]
    and buffer as before and an empty queue, and the [make_plqu] after
    that finds the pool full again. *)
Theorem free_plqu_one_of_full pool h q :
  reachable pool -> Forall in_use pool -> pool !! h = Some q ->
  make_plqu (<[h := free_plqu q]> pool)
  = Some (h, <[h := Plqu (z q) (a q) 0 0]> pool)
  /\ make_plqu (<[h := Plqu (z q) (a q) 0 0]> pool) = None.
Proof.
  intros Hreach Hall Hl. apply reachable_pool_ok in Hreach.
  assert (in_use q) as Hu.
  { rewrite Forall_lookup in Hall. now apply (Hall h). }
  pose proof (slot_ok_in_use q (pool_ok_lookup pool h q Hreach Hl) Hu) as Hq.
  pose proof (lookup_lt_Some _ _ _ Hl) as Hlt.
  set (pool1 := <[h := free_plqu q]> pool).
  assert (pool1 !! h = Some (free_plqu q)) as Hl1
      by now apply list_lookup_insert_eq.
  assert (_next_free pool1 = h) as Hnf.
  { destruct (_next_free_from_stop pool1 0) as (_ & Hfirst & Hstop).
    specialize (Hfirst h (free_plqu q) Hl1
                  (free_not_in_use _ (free_plqu_free_ok q Hq))).
    unfold _next_free. destruct (Nat.eq_dec (_next_free_from pool1 0) h)
      as [| Hne]; [assumption | exfalso].
    destruct (lookup_lt_is_Some_2 pool (_next_free_from pool1 0)) as [q0 Hl0];
      [lia |].
    apply (Hstop q0).
    - rewrite Nat.sub_0_r. subst pool1.
      now rewrite list_lookup_insert_ne by congruence.
    - rewrite Forall_lookup in Hall. now apply (Hall (_next_free_from pool1 0)). }
  assert (wrap (wrap (z q + 1) - 1) = z q) as Hz.
  { destruct (inuse_ok_z q Hq) as [[_ ->] | [H8 ->]]; [reflexivity |].
    destruct Hq as [Hc _]. apply cap_ok_range in Hc.
    replace (cap q - 1 + 1) with (cap q) by lia.
    rewrite (wrap_small (cap q)) by (unfold size_ok; rewrite pow64; lia).
    apply wrap_small. unfold size_ok. rewrite pow64. lia. }
  split.
  - unfold make_plqu. rewrite Hnf, Hl1. simpl. rewrite Hz.
    subst pool1. now rewrite list_insert_insert_eq.
  - apply make_plqu_all_in_use. apply Forall_insert; [assumption |].
    unfold in_use in *. exact Hu.
Qed.

(** ** The iterator and the queue *)

(** [plqu_iter_next] on a well-formed queue. *)
Lemma plqu_iter_next_ok pool iter h q :
  iter_q iter = Some h -> pool !! h = Some q -> plqu_ok q ->
  (exists k x,
      Z.max (iter_i iter) (head q) < k <= tail q
      /\ plqu_get q k = Some x /\ plqu_val_nil_p x = false
      /\ (forall j, Z.max (iter_i iter) (head q) < j < k -> nil_at q j)
      /\ plqu_iter_next pool iter = Some (true, PlquIter (Some h) k x, pool))
  \/ ((forall j, Z.max (iter_i iter) (head q) < j <= tail q -> nil_at q j)
      /\ plqu_iter_next pool iter
         = Some (false, PlquIter (Some h) (wrap (tail q + 1)) (iter_v iter),
                 pool)).
Proof.
  intros Hb Hl Hq. unfold plqu_iter_next. rewrite Hb, Hl. simpl.
  set (iter0 := if iter_i iter <? head q
                then PlquIter (Some h) (head q) (iter_v iter)
                else iter).
  assert (iter_i iter0 = Z.max (iter_i iter) (head q)
          /\ iter_q iter0 = Some h /\ iter_v iter0 = iter_v iter)
    as (Hi0 & Hq0 & Hv0).
  { subst iter0. destruct (Z.ltb_spec (iter_i iter) (head q)); simpl;
      (split; [lia | now split]). }
  destruct (plqu_iter_scan_spec (Z.to_nat (tail q - iter_i iter0)) q iter0)
    as [(k & x & Hk & Hg & Hnil & Hbelow & Hs) | (Hall & Hs)];
    try assumption; try lia.
  - left. exists k, x. rewrite Hi0 in Hk, Hbelow. rewrite Hq0 in Hs.
    conjs; try assumption; try lia. now rewrite Hs.
  - right. rewrite Hi0 in Hall. rewrite Hq0, Hv0 in Hs.
    split; [assumption |]. now rewrite Hs.
Qed.

(** The position past [tail] is no id of the queue. *)
Lemma past_tail_no_id t :
  size_ok t -> (if wrap (t + 1) <=? t then wrap (t + 1) else 0) = 0.
Proof.
  intros Ht. destruct (Z.eq_dec (t + 1) (2 ^ size_bits)) as [Heq | Hne].
  - unfold wrap. rewrite Heq, Z.mod_same by discriminate.
    now destruct (0 <=? t).
  - rewrite wrap_small by (unfold size_ok in *; lia).
    destruct (Z.leb_spec (t + 1) t); [lia | reflexivity].
Qed.

(** X7: after [plqu_iter_next] on an iterator bound to a well-formed
    queue, [plqu_iter_qid] is the id found, a live id whose value
    [plqu_get] gives as the value in the iterator, when the call
    returned [true], and 0 when it returned [false]. *)
Theorem plqu_iter_next_qid pool iter h q found iter' pool' :
  iter_q iter = Some h -> pool !! h = Some q -> plqu_ok q ->
  plqu_iter_next pool iter = Some (found, iter', pool') ->
  plqu_iter_qid pool' iter' = Some (if found then iter_i iter' else 0)
  /\ (found = true ->
      head q < iter_i iter' <= tail q
      /\ plqu_get q (iter_i iter') = Some (iter_v iter')).
Proof.
  intros Hb Hl Hq Hnext.
  destruct (plqu_iter_next_ok pool iter h q Hb Hl Hq)
    as [(k & x & Hk & Hg & _ & _ & Hn) | (_ & Hn)];
    rewrite Hn in Hnext; injection Hnext as <- <- <-;
    unfold plqu_iter_qid; simpl; rewrite Hl; simpl.
  - destruct (Z.leb_spec k (tail q)); [| lia].
    split; [reflexivity |]. intros _. split; [lia | assumption].
  - destruct Hq as (_ & _ & Ht & _). rewrite past_tail_no_id by assumption.
    split; [reflexivity | discriminate].
Qed.

(** X8: [plqu_iter_put] returns -1 and leaves the pool alone on an
    unbound iterator and on one whose position is no live id of its
    queue (0, at or before [head], past [tail]).  At a live id of a
    well-formed queue it returns 0, and afterwards [plqu_get] gives
    the new value there and the old values elsewhere. *)
Theorem plqu_iter_put_spec pool iter v :
  (iter_q iter = None -> plqu_iter_put pool iter v = Some (-1, pool))
  /\ (forall h q,
        iter_q iter = Some h -> pool !! h = Some q -> plqu_ok q ->
        (head q < iter_i iter <= tail q ->
         exists q',
           plqu_iter_put pool iter v = Some (0, <[h := q']> pool)
           /\ head q' = head q /\ tail q' = tail q
           /\ plqu_get q' (iter_i iter) = Some v
           /\ forall j, j <> iter_i iter -> plqu_get q' j = plqu_get q j)
        /\ (~ (head q < iter_i iter <= tail q) ->
            plqu_iter_put pool iter v = Some (-1, pool))).
Proof.
  split.
  - intros Hn. unfold plqu_iter_put. now rewrite Hn.
  - intros h q Hb Hl Hq. pose proof Hq as (_ & Hh & _).
    unfold plqu_iter_put, at_handle. rewrite Hb, Hl. simpl. split.
    + intros Hi.
      destruct (plqu_put_live q (iter_i iter) v Hq Hi)
        as (q' & Hp & _ & _ & _ & Hh' & Ht' & Hg & Hkeep).
      destruct (Z.eqb_spec (iter_i iter) 0); [unfold size_ok in *; lia |].
      destruct (Z.ltb_spec (tail q) (iter_i iter)); [lia |]. simpl.
      rewrite Hp. simpl. exists q'. conjs; try assumption; reflexivity.
    + intros Hi.
      destruct (Z.eqb_spec (iter_i iter) 0); [reflexivity |].
      destruct (Z.ltb_spec (tail q) (iter_i iter)); [reflexivity |]. simpl.
      unfold plqu_put.
      destruct (Z.ltb_spec (head q) (iter_i iter)); [lia |]. simpl.
      now rewrite list_insert_id.
Qed.

(** X9: a live id overwritten with a value that [plqu_val_nil_p] takes
    for nil is passed over: whatever iterator is bound to the queue,
    the next [plqu_iter_next] has a result and does not stop there;
    where it stops it shows a value the queue held before. *)
Theorem plqu_put_nil_skipped pool h q i v iter :
  pool !! h = Some q -> plqu_ok q -> head q < i <= tail q ->
  plqu_val_nil_p v = true -> iter_q iter = Some h ->
  exists q' found iter',
    plqu_put q i v = Some (0, q')
    /\ plqu_iter_next (<[h := q']> pool) iter
       = Some (found, iter', <[h := q']> pool)
    /\ (found = true ->
        iter_i iter' <> i
        /\ plqu_get q (iter_i iter') = Some (iter_v iter')
        /\ plqu_val_nil_p (iter_v iter') = false).
Proof.
  intros Hl Hq Hi Hnil Hb.
  destruct (plqu_put_live q i v Hq Hi)
    as (q' & Hp & Hq' & _ & _ & _ & _ & Hg & Hkeep).
  assert (<[h := q']> pool !! h = Some q') as Hl'.
  { apply list_lookup_insert_eq. now apply lookup_lt_Some in Hl. }
  destruct (plqu_iter_next_ok (<[h := q']> pool) iter h q' Hb Hl' Hq')
    as [(k & x & Hk & Hgk & Hnk & _ & Hn) | (_ & Hn)].
  - exists q', true, (PlquIter (Some h) k x). conjs; try assumption.
    intros _. simpl.
    assert (k <> i) as Hne by (intros ->; congruence).
    conjs; try assumption. now rewrite <- Hkeep.
  - exists q', false, (PlquIter (Some h) (wrap (tail q' + 1)) (iter_v iter)).
    conjs; try assumption. discriminate.
Qed.

(** X10: when [plqu_iter_next] has found an id [k] in a well-formed
    queue, [plqu_iter_set_top] followed by [plqu_pop] gives the value
    the iterator shows and leaves [head = k]; the commit drops the ids
    before [k] (they read nil) and keeps what the ids from [k] on
    hold. *)
Theorem plqu_iter_set_top_pop pool iter h q iter' :
  iter_q iter = Some h -> pool !! h = Some q -> plqu_ok q ->
  plqu_iter_next pool iter = Some (true, iter', pool) ->
  exists q1,
    plqu_iter_set_top pool iter' = Some (0, <[h := q1]> pool)
    /\ head q1 = iter_i iter' - 1
    /\ plqu_top q1 = Some (iter_v iter')
    /\ plqu_pop q1
       = Some (iter_v iter', Plqu (z q) (a q) (iter_i iter') (tail q))
    /\ (forall j, iter_i iter' <= j -> plqu_get q1 j = plqu_get q j)
    /\ (forall j, j < iter_i iter' -> plqu_get q1 j = Some plqu_val_nil).
Proof.
  intros Hb Hl Hq Hnext.
  destruct (plqu_iter_next_ok pool iter h q Hb Hl Hq)
    as [(k & x & Hk & Hg & _ & _ & Hn) | (_ & Hn)];
    rewrite Hn in Hnext; [| discriminate].
  injection Hnext as <-. simpl.
  pose proof Hq as (Hz & Hh & Ht & Hle & Hw).
  set (q1 := Plqu (z q) (a q) (k - 1) (tail q)).
  assert (plqu_ok q1) as Hq1.
  { split; [now apply (inuse_ok_same q) |]. simpl.
    unfold cap in *. simpl. unfold size_ok in *. lia. }
  assert (forall j, k <= j -> plqu_get q1 j = plqu_get q j) as Hkeep.
  { intros j Hj. apply plqu_get_window; simpl; try reflexivity; lia. }
  destruct (plqu_pop_step q1 Hq1) as (y & Hgy & Hp & _); [simpl; lia |].
  simpl in Hgy, Hp. replace (k - 1 + 1) with k in Hgy, Hp by lia.
  rewrite Hkeep, Hg in Hgy by lia. injection Hgy as <-.
  exists q1. conjs; try assumption; try reflexivity.
  - rewrite (plqu_iter_set_top_done pool _ h q); simpl; try assumption;
      try reflexivity.
    + rewrite wrap_small; [reflexivity |]. unfold size_ok in *. lia.
    + unfold size_ok in *. lia.
  - unfold plqu_top, plqu_pop in *. simpl in *.
    destruct (k - 1 <? tail q); [| congruence].
    destruct (array_get _ _); [| discriminate]. simpl in Hp. congruence.
  - intros j Hj. apply plqu_get_out. simpl. lia.
Qed.

(** ** The id [plqu_add] returns, and the size of the buffer *)

Lemma inuse_z_succ q : inuse_ok q -> wrap (z q + 1) = cap q.
Proof.
  intros Hq. destruct (inuse_ok_z q Hq) as [[-> ->] | [H8 ->]]; [reflexivity |].
  destruct Hq as [Hc _]. apply cap_ok_range in Hc.
  replace (cap q - 1 + 1) with (cap q) by lia.
  apply wrap_small. unfold size_ok. rewrite pow64. lia.
Qed.

Lemma plqu_add_store_cap q v r q' :
  plqu_add_store q v = Some (r, q') -> cap q' = cap q /\ 0 < cap q'.
Proof.
  unfold plqu_add_store, array_set, cap.
  destruct (Z.leb_spec 0 (Z.land (tail q) (z q))),
    (Z.ltb_spec (Z.land (tail q) (z q)) (Z.of_nat (length (a q))));
    simpl; try discriminate.
  intros [= _ <-]. simpl. rewrite length_insert. lia.
Qed.

Lemma plqu_add_cap r q v id q' :
  inuse_ok q -> plqu_add r q v = Some (id, q') -> cap q <= cap q'.
Proof.
  intros Hq Hadd.
  destruct (wrap (tail q - head q) >=? wrap (z q + 1)) eqn:Hgrow.
  2:{ unfold plqu_add in Hadd. rewrite Hgrow in Hadd.
      apply plqu_add_store_cap in Hadd. lia. }
  assert (wrap (tail q - head q) >= wrap (z q + 1)) as Hge.
  { destruct (Z.geb_spec (wrap (tail q - head q)) (wrap (z q + 1)));
      [lia | discriminate]. }
  destruct r as [junk |].
  2:{ unfold plqu_add in Hadd. rewrite Hgrow in Hadd. simpl in Hadd.
      injection Hadd as _ <-. lia. }
  pose proof Hq as [Hc _]. apply cap_ok_range in Hc as ([H0 | H8] & Hmax & _).
  - rewrite plqu_add_grow_first in Hadd by assumption.
    apply plqu_add_store_cap in Hadd. lia.
  - destruct (Z.eq_dec (cap q) (2 ^ 63)) as [H63 | H63].
    { now rewrite plqu_add_grow_overflow in Hadd. }
    rewrite plqu_add_grow_double in Hadd by (try assumption; lia).
    apply plqu_add_store_cap in Hadd as [-> _].
    unfold cap. simpl. rewrite length_app. lia.
Qed.

(** X11: on a well-formed queue whose counters and buffer are not at
    the end of their 64 bits, [plqu_add] has a result, and the id it
    returns is 0 exactly when the queue is full and [realloc] fails,
    the queue then being as it was.  Otherwise the id is the new
    [tail], one more than the old, and [plqu_get] gives the value
    there; with room in the buffer nothing is allocated: the size
    stays and the outcome of [realloc] does not matter. *)
Theorem plqu_add_id r q v :
  plqu_ok q -> tail q + 1 < 2 ^ size_bits -> tail q - head q < 2 ^ 63 ->
  exists id q',
    plqu_add r q v = Some (id, q')
    /\ (id = 0 <-> tail q - head q = cap q /\ r = None)
    /\ (id = 0 -> q' = q)
    /\ (id <> 0 ->
        id = tail q + 1 /\ tail q' = id /\ head q' = head q
        /\ plqu_get q' id = Some v)
    /\ (tail q - head q < cap q ->
        cap q' = cap q /\ plqu_add r q v = plqu_add None q v).
Proof.
  intros Hq Hnowrap Hsmall. pose proof Hq as (Hz & Hh & Ht & Hle & Hw).
  destruct (wrap (tail q - head q) >=? wrap (z q + 1)) eqn:Hgrow.
  - pose proof (proj1 (plqu_add_full q Hq) Hgrow) as Hfull.
    destruct r as [junk |].
    + destruct (plqu_add_ok junk q v Hq Hsmall Hnowrap)
        as (q' & Hadd & _ & Hh' & Ht' & Hv & _).
      exists (tail q + 1), q'. unfold size_ok in *.
      conjs; try assumption; try lia.
      * split; [lia | intros [_ Hr]; discriminate].
      * intros _. conjs; try assumption; reflexivity.
    + exists 0, q. unfold plqu_add. rewrite Hgrow. simpl.
      conjs; try reflexivity; try lia. split; [now split | reflexivity].
  - assert (tail q - head q < cap q) as Hroom.
    { destruct (Z_lt_dec (tail q - head q) (cap q)); [assumption |].
      assert (tail q - head q = cap q) as Hfull by lia.
      apply plqu_add_full in Hfull; [congruence | assumption]. }
    destruct (plqu_add_store_get q v)
      as (q' & Hs & _ & Hc & Hh' & Ht' & Hv & _); try assumption.
    exists (tail q + 1), q'. unfold plqu_add. rewrite Hgrow.
    unfold size_ok in *. conjs; try assumption; try lia.
    + intros _. conjs; try assumption; reflexivity.
    + intros _. split; [assumption | reflexivity].
Qed.

Lemma at_handle_rel {A} (R : plqu_s -> plqu_s -> Prop) pool h0
    (f : plqu_s -> option (A * plqu_s)) r pool' :
  (forall q, R q q) ->
  (forall q q', pool !! h0 = Some q -> f q = Some (r, q') -> R q q') ->
  at_handle pool h0 f = Some (r, pool') ->
  length pool' = length pool
  /\ forall h q q', pool !! h = Some q -> pool' !! h = Some q' -> R q q'.
Proof.
  intros Hrefl Hf. unfold at_handle.
  destruct (pool !! h0) as [q0 |] eqn:Hl0; [| discriminate]. simpl.
  destruct (f q0) as [[r' q0'] |] eqn:Hfq; [| discriminate]. simpl.
  intros [= -> <-]. split; [apply length_insert |].
  intros h q q' Hl Hl'. destruct (Nat.eq_dec h0 h) as [<- | Hne].
  - rewrite list_lookup_insert_eq in Hl' by now apply lookup_lt_Some in Hl0.
    injection Hl' as <-. rewrite Hl0 in Hl. injection Hl as <-.
    now apply Hf.
  - rewrite list_lookup_insert_ne in Hl' by assumption.
    rewrite Hl in Hl'. injection Hl' as <-. apply Hrefl.
Qed.

(** X12: no call shrinks or gives up a buffer.  Whatever function the
    owner calls on a handle in use, with a defined result, the pool
    keeps its number of slots and the buffer of every slot has as many
    elements as before or more, [free_plqu] and [make_plqu]
    included. *)
Theorem run_cap_monotone pool c pool' :
  reachable pool -> allowed pool c -> run pool c = Some pool' ->
  length pool' = length pool
  /\ forall h q q', pool !! h = Some q -> pool' !! h = Some q' ->
       cap q <= cap q'.
Proof.
  intros Hreach Hallowed Hrun. apply reachable_pool_ok in Hreach as Hpool.
  assert (forall h q, call_handle c = Some h -> pool !! h = Some q ->
                      inuse_ok q) as Hin.
  { intros h q Hc Hl. destruct (Hallowed h Hc) as (q1 & Hl1 & Hu).
    rewrite Hl in Hl1. injection Hl1 as <-.
    apply slot_ok_in_use; [now apply (pool_ok_lookup pool h) | assumption]. }
  assert (forall q : plqu_s, cap q <= cap q) as Hrefl by (intros; lia).
  clear Hallowed.
  assert (forall (A : Type) h0 (f : plqu_s -> option (A * plqu_s)) r,
            (forall q q', pool !! h0 = Some q -> f q = Some (r, q') ->
                          cap q <= cap q') ->
            at_handle pool h0 f = Some (r, pool') ->
            length pool' = length pool
            /\ forall h q q', pool !! h = Some q -> pool' !! h = Some q' ->
                              cap q <= cap q') as Hat.
  { intros A h0 f r Hf. now apply at_handle_rel. }
  assert (pool' = pool ->
          length pool' = length pool
          /\ forall h q q', pool !! h = Some q -> pool' !! h = Some q' ->
                            cap q <= cap q') as Hsame.
  { intros ->. split; [reflexivity |]. intros h q q' Hl Hl'.
    rewrite Hl in Hl'. injection Hl' as <-. lia. }
  destruct c; simpl in Hrun, Hin.
  - destruct (make_plqu pool) as [[h p1] |] eqn:Hm; [| discriminate].
    injection Hrun as ->.
    destruct (make_plqu_ok _ _ _ Hpool Hm) as (q0 & Hl0 & _ & -> & _).
    split; [apply length_insert |]. intros h' q q' Hl Hl'.
    destruct (Nat.eq_dec h h') as [<- | Hne].
    + rewrite list_lookup_insert_eq in Hl' by now apply lookup_lt_Some in Hl0.
      injection Hl' as <-. rewrite Hl0 in Hl. injection Hl as <-.
      unfold cap. simpl. lia.
    + rewrite list_lookup_insert_ne in Hl' by assumption.
      rewrite Hl in Hl'. injection Hl' as <-. lia.
  - destruct (at_handle pool h _) as [[r p1] |] eqn:Hath; [| discriminate].
    injection Hrun as ->. apply (Hat _ _ _ _) in Hath; [assumption |].
    intros q q' Hl Heq. assert (q' = free_plqu q) as -> by congruence.
    unfold cap. simpl. lia.
  - apply Hsame. destruct (pool !! h); [| discriminate]. simpl in Hrun.
    destruct (plqu_get _ _); [| discriminate]. now injection Hrun as <-.
  - destruct (at_handle pool h _) as [[r p1] |] eqn:Hath; [| discriminate].
    injection Hrun as ->. apply (Hat _ _ _ _) in Hath; [assumption |].
    intros q q' Hl Hput.
    pose proof (plqu_put_inuse q i v r q' (Hin h q eq_refl Hl) Hput) as Hq'.
    unfold plqu_put in Hput. destruct (negb _).
    + injection Hput as _ <-. lia.
    + destruct (array_set (a q) _ v) as [buf |] eqn:Hset; [| discriminate].
      injection Hput as _ <-. apply array_set_length in Hset.
      unfold cap. simpl. lia.
  - destruct (at_handle pool h _) as [[id p1] |] eqn:Hath; [| discriminate].
    injection Hrun as ->. apply (Hat _ _ _ _) in Hath; [assumption |].
    intros q q' Hl Hadd. apply (plqu_add_cap r q v id q'); [| assumption].
    now apply (Hin h).
  - apply Hsame. destruct (pool !! h); [| discriminate]. simpl in Hrun.
    destruct (plqu_top _); [| discriminate]. now injection Hrun as <-.
  - destruct (at_handle pool h _) as [[r p1] |] eqn:Hath; [| discriminate].
    injection Hrun as ->. apply (Hat _ _ _ _) in Hath; [assumption |].
    intros q q' Hl Hpop. unfold plqu_pop in Hpop.
    destruct (head q <? tail q).
    + destruct (array_get _ _); [| discriminate]. simpl in Hpop.
      injection Hpop as _ <-. unfold cap. simpl. lia.
    + injection Hpop as _ <-. lia.
  - apply Hsame. unfold plqu_iter_next in Hrun.
    destruct (iter_q iter) as [h |].
    + destruct (pool !! h); [| discriminate]. simpl in Hrun.
      destruct (plqu_iter_scan _ _ _) as [[found iter'] |]; [| discriminate].
      now injection Hrun as <-.
    + now injection Hrun as <-.
  - apply Hsame. destruct (plqu_iter_qid pool iter); [| discriminate].
    now injection Hrun as <-.
  - unfold plqu_iter_put in Hrun. destruct (iter_q iter) as [h |].
    + destruct (pool !! h) as [q0 |] eqn:Hl0; [| discriminate]. simpl in Hrun.
      destruct (_ || _); [apply Hsame; now injection Hrun as <- |].
      destruct (at_handle pool h _) as [[r p1] |] eqn:Hath; [| discriminate].
      injection Hrun as ->. apply (Hat _ _ _ _) in Hath; [assumption |].
      intros q q' Hl Hput. unfold plqu_put in Hput. destruct (negb _).
      * injection Hput as _ <-. lia.
      * destruct (array_set (a q) _ v) as [buf |] eqn:Hset; [| discriminate].
        injection Hput as _ <-. apply array_set_length in Hset.
        unfold cap. simpl. lia.
    + apply Hsame. now injection Hrun as <-.
  - unfold plqu_iter_set_top in Hrun. destruct (iter_q iter) as [h |].
    + destruct (iter_i iter =? 0); [apply Hsame; now injection Hrun as <- |].
      destruct (at_handle pool h _) as [[r p1] |] eqn:Hath; [| discriminate].
      injection Hrun as ->. apply (Hat _ _ _ _) in Hath; [assumption |].
      intros q q' Hl Heq.
      assert (q' = Plqu (z q) (a q) (wrap (iter_i iter - 1)) (tail q)) as ->
        by congruence.
      unfold cap. simpl. lia.
    + apply Hsame. now injection Hrun as <-.
Qed.

(** ** No access outside a buffer *)

Lemma slot_safe_same q q' :
  length (a q') = length (a q) -> size_ok (head q') -> tail q' = tail q ->
  slot_safe q -> slot_safe q'.
Proof.
  unfold slot_safe, cap. intros -> Hh ->. intros (_ & Ht & Hc). now conjs.
Qed.

Lemma plqu_add_store_safe q v r q' :
  size_ok (head q) -> plqu_add_store q v = Some (r, q') -> slot_safe q'.
Proof.
  intros Hh Hs. pose proof (plqu_add_store_cap q v r q' Hs) as [_ Hpos].
  unfold plqu_add_store in Hs.
  destruct (array_set _ _ _); [| discriminate]. injection Hs as _ <-.
  unfold slot_safe. simpl. conjs; [assumption | apply wrap_size_ok | lia].
Qed.

Lemma plqu_add_safe r q v id q' :
  slot_safe q -> plqu_add r q v = Some (id, q') -> slot_safe q'.
Proof.
  intros Hq. pose proof Hq as (Hh & _). unfold plqu_add.
  destruct (_ >=? _); [| now apply plqu_add_store_safe].
  destruct (realloc r (a q) (plqu_nuz q)) as [tmp |].
  - destruct (memcpy tmp _ _ _) as [buf |]; [| discriminate]. simpl.
    now apply plqu_add_store_safe.
  - now intros [= _ <-].
Qed.

Lemma at_handle_Forall {A} (P : plqu_s -> Prop) pool h
    (f : plqu_s -> option (A * plqu_s)) r pool' :
  Forall P pool ->
  (forall q q', P q -> f q = Some (r, q') -> P q') ->
  at_handle pool h f = Some (r, pool') -> Forall P pool'.
Proof.
  intros Hall Hf. unfold at_handle.
  destruct (pool !! h) as [q |] eqn:Hl; [| discriminate]. simpl.
  destruct (f q) as [[r' q'] |] eqn:Hfq; [| discriminate]. simpl.
  intros [= -> <-]. apply Forall_insert; [assumption |].
  apply (Hf q); [| assumption]. rewrite Forall_lookup in Hall.
  now apply (Hall h).
Qed.

Lemma run_slot_safe pool c pool' :
  Forall slot_safe pool -> run pool c = Some pool' -> Forall slot_safe pool'.
Proof.
  intros Hall Hrun. destruct c; simpl in Hrun.
  - unfold make_plqu in Hrun.
    destruct (pool !! _next_free pool) as [q |] eqn:Hl; [| discriminate].
    simpl in Hrun. injection Hrun as <-.
    apply Forall_insert; [assumption |]. rewrite Forall_lookup in Hall.
    pose proof (Hall _ _ Hl) as (Hh & Ht & Hc). now conjs.
  - destruct (at_handle pool h _) as [[r p1] |] eqn:Hat; [| discriminate].
    injection Hrun as <-. apply (at_handle_Forall _ _ _ _ _ _ Hall) in Hat;
      [assumption |].
    intros q q' _ Heq. assert (q' = free_plqu q) as -> by congruence.
    unfold slot_safe, size_ok. simpl. conjs; try lia; reflexivity.
  - destruct (pool !! h); [| discriminate]. simpl in Hrun.
    destruct (plqu_get _ _); [| discriminate]. now injection Hrun as <-.
  - destruct (at_handle pool h _) as [[r p1] |] eqn:Hat; [| discriminate].
    injection Hrun as <-. apply (at_handle_Forall _ _ _ _ _ _ Hall) in Hat;
      [assumption |].
    intros q q' Hq Hput. unfold plqu_put in Hput. destruct (negb _).
    + now injection Hput as _ <-.
    + destruct (array_set (a q) _ v) as [buf |] eqn:Hset; [| discriminate].
      injection Hput as _ <-. apply array_set_length in Hset.
      apply (slot_safe_same q); try assumption; try reflexivity.
      now destruct Hq.
  - destruct (at_handle pool h _) as [[id p1] |] eqn:Hat; [| discriminate].
    injection Hrun as <-. apply (at_handle_Forall _ _ _ _ _ _ Hall) in Hat;
      [assumption |].
    intros q q' Hq Hadd. now apply (plqu_add_safe r q v id q').
  - destruct (pool !! h); [| discriminate]. simpl in Hrun.
    destruct (plqu_top _); [| discriminate]. now injection Hrun as <-.
  - destruct (at_handle pool h _) as [[r p1] |] eqn:Hat; [| discriminate].
    injection Hrun as <-. apply (at_handle_Forall _ _ _ _ _ _ Hall) in Hat;
      [assumption |].
    intros q q' Hq Hpop. unfold plqu_pop in Hpop. destruct (head q <? tail q).
    + destruct (array_get _ _); [| discriminate]. simpl in Hpop.
      injection Hpop as _ <-.
      apply (slot_safe_same q); try assumption; try reflexivity.
      apply wrap_size_ok.
    + now injection Hpop as _ <-.
  - unfold plqu_iter_next in Hrun. destruct (iter_q iter) as [h |].
    + destruct (pool !! h); [| discriminate]. simpl in Hrun.
      destruct (plqu_iter_scan _ _ _) as [[found iter'] |]; [| discriminate].
      now injection Hrun as <-.
    + now injection Hrun as <-.
  - destruct (plqu_iter_qid pool iter); [| discriminate].
    now injection Hrun as <-.
  - unfold plqu_iter_put in Hrun. destruct (iter_q iter) as [h |].
    + destruct (pool !! h) as [q0 |] eqn:Hl0; [| discriminate]. simpl in Hrun.
      destruct (_ || _); [now injection Hrun as <- |].
      destruct (at_handle pool h _) as [[r p1] |] eqn:Hat; [| discriminate].
      injection Hrun as <-. apply (at_handle_Forall _ _ _ _ _ _ Hall) in Hat;
        [assumption |].
      intros q q' Hq Hput. unfold plqu_put in Hput. destruct (negb _).
      * now injection Hput as _ <-.
      * destruct (array_set (a q) _ v) as [buf |] eqn:Hset; [| discriminate].
        injection Hput as _ <-. apply array_set_length in Hset.
        apply (slot_safe_same q); try assumption; try reflexivity.
        now destruct Hq.
    + now injection Hrun as <-.
  - unfold plqu_iter_set_top in Hrun. destruct (iter_q iter) as [h |].
    + destruct (iter_i iter =? 0); [now injection Hrun as <- |].
      destruct (at_handle pool h _) as [[r p1] |] eqn:Hat; [| discriminate].
      injection Hrun as <-. apply (at_handle_Forall _ _ _ _ _ _ Hall) in Hat;
        [assumption |].
      intros q q' Hq Heq.
      assert (q' = Plqu (z q) (a q) (wrap (iter_i iter - 1)) (tail q)) as ->
        by congruence.
      apply (slot_safe_same q); try assumption; try reflexivity.
      apply wrap_size_ok.
    + now injection Hrun as <-.
Qed.

Lemma reachable_slot_safe pool : reachable pool -> Forall slot_safe pool.
Proof.
  induction 1 as [| pool c pool' _ IH _ Hrun].
  - apply Forall_replicate. unfold slot_safe, size_ok. simpl.
    conjs; try lia; reflexivity.
  - now apply (run_slot_safe pool c).
Qed.

(** A read or write through the mask of a queue that holds elements. *)
Lemma slot_in_buffer q p :
  inuse_ok q -> slot_safe q -> 0 < tail q ->
  0 <= Z.land p (z q) < Z.of_nat (length (a q)).
Proof.
  intros Hq (_ & _ & Hc) Ht. apply inuse_slot_lt; [assumption |].
  destruct Hq as [Hcap _]. apply cap_ok_range in Hcap. lia.
Qed.

Lemma plqu_iter_scan_defined q : forall fuel iter,
  inuse_ok q -> slot_safe q -> 0 <= iter_i iter ->
  (Z.to_nat (tail q - iter_i iter) <= fuel)%nat ->
  is_Some (plqu_iter_scan fuel q iter).
Proof.
  induction fuel as [| fuel IH]; intros iter Hq Hs Hi Hf; simpl;
    destruct (Z.ltb_spec (iter_i iter) (tail q)) as [Hlt | Hge];
    try (eexists; reflexivity); try lia.
  destruct (array_get_lookup (a q) (Z.land (iter_i iter) (z q)))
    as (x & -> & _).
  { apply slot_in_buffer; try assumption; lia. }
  simpl. destruct (plqu_val_nil_p x); simpl; [| eexists; reflexivity].
  pose proof Hs as (_ & Ht & _).
  apply IH; simpl; try assumption;
    rewrite wrap_small by (unfold size_ok in *; lia); lia.
Qed.

(** X13: in a pool the owner can get to, no call on a handle in use
    reads or writes outside a buffer: [plqu_get], [plqu_put],
    [plqu_top], [plqu_pop] and the four functions of an iterator bound
    to the handle have a defined result whatever their arguments, and
    so has [plqu_add], the doubling of a buffer of [2 ^ 63] elements
    apart. *)
Theorem reachable_calls_defined pool h q :
  reachable pool -> pool !! h = Some q -> in_use q ->
  (forall i, is_Some (plqu_get q i))
  /\ (forall i v, is_Some (plqu_put q i v))
  /\ is_Some (plqu_top q)
  /\ is_Some (plqu_pop q)
  /\ (forall v, is_Some (plqu_add None q v))
  /\ (forall junk v, cap q < 2 ^ 63 -> is_Some (plqu_add (Some junk) q v))
  /\ (forall iter, iter_q iter = Some h ->
        is_Some (plqu_iter_next pool iter)
        /\ is_Some (plqu_iter_qid pool iter)
        /\ (forall v, is_Some (plqu_iter_put pool iter v))
        /\ is_Some (plqu_iter_set_top pool iter)).
Proof.
  intros Hreach Hl Hu.
  pose proof (reachable_slot_safe pool Hreach) as Hsafe.
  rewrite Forall_lookup in Hsafe. specialize (Hsafe h q Hl).
  apply reachable_pool_ok in Hreach.
  pose proof (slot_ok_in_use q (pool_ok_lookup pool h q Hreach Hl) Hu) as Hq.
  pose proof Hsafe as (Hh & Ht & Hc).
  assert (forall i v, is_Some (plqu_put q i v)) as Hput.
  { intros i v. unfold plqu_put.
    destruct (Z.ltb_spec (head q) i), (Z.leb_spec i (tail q)); simpl;
      try (eexists; reflexivity).
    rewrite array_set_insert; [eexists; reflexivity |].
    apply slot_in_buffer; try assumption. unfold size_ok in *. lia. }
  assert (forall v, (wrap (tail q - head q) >=? wrap (z q + 1)) = false ->
                    is_Some (plqu_add_store q v)) as Hstore.
  { intros v Hgrow. rewrite plqu_add_store_at; [eexists; reflexivity | assumption |].
    rewrite inuse_z_succ in Hgrow by assumption.
    pose proof (wrap_size_ok (tail q - head q)) as Hw. unfold size_ok in Hw.
    destruct (Z.geb_spec (wrap (tail q - head q)) (cap q)); [discriminate | lia]. }
  conjs.
  - intros i. unfold plqu_get.
    destruct (Z.ltb_spec (head q) i), (Z.leb_spec i (tail q)); simpl;
      try (eexists; reflexivity).
    destruct (array_get_lookup (a q) (Z.land (wrap (i - 1)) (z q)))
      as (x & -> & _); [| eexists; reflexivity].
    apply slot_in_buffer; try assumption. unfold size_ok in *. lia.
  - exact Hput.
  - unfold plqu_top. destruct (Z.ltb_spec (head q) (tail q));
      [| eexists; reflexivity].
    destruct (array_get_lookup (a q) (Z.land (head q) (z q)))
      as (x & -> & _); [| eexists; reflexivity].
    apply slot_in_buffer; try assumption. unfold size_ok in *. lia.
  - unfold plqu_pop. destruct (Z.ltb_spec (head q) (tail q));
      [| eexists; reflexivity].
    destruct (array_get_lookup (a q) (Z.land (head q) (z q)))
      as (x & -> & _); [| eexists; reflexivity].
    apply slot_in_buffer; try assumption. unfold size_ok in *. lia.
  - intros v. destruct (wrap (tail q - head q) >=? wrap (z q + 1)) eqn:Hgrow.
    + unfold plqu_add. rewrite Hgrow. eexists. reflexivity.
    + unfold plqu_add. rewrite Hgrow. now apply Hstore.
  - intros junk v Hsmall.
    destruct (wrap (tail q - head q) >=? wrap (z q + 1)) eqn:Hgrow.
    2:{ unfold plqu_add. rewrite Hgrow. now apply Hstore. }
    assert (wrap (tail q - head q) >= wrap (z q + 1)) as Hge.
    { destruct (Z.geb_spec (wrap (tail q - head q)) (wrap (z q + 1)));
        [lia | discriminate]. }
    pose proof Hq as [Hcap _].
    apply cap_ok_range in Hcap as ([H0 | H8] & _ & _).
    + rewrite plqu_add_grow_first by assumption.
      rewrite plqu_add_store_at; [eexists; reflexivity | |].
      * now apply inuse_ok_first.
      * unfold cap. simpl. lia.
    + rewrite plqu_add_grow_double by (try assumption; lia).
      rewrite plqu_add_store_at; [eexists; reflexivity | |].
      * apply inuse_ok_double; [assumption | lia].
      * unfold cap in *. simpl. rewrite length_app. lia.
  - intros iter Hb. conjs.
    + unfold plqu_iter_next. rewrite Hb, Hl. simpl.
      match goal with
      | |- is_Some (plqu_iter_scan ?f q ?it ≫= _) =>
          destruct (plqu_iter_scan_defined q f it) as [[found iter'] ->];
          try assumption; try lia; [| eexists; reflexivity]
      end.
      destruct (Z.ltb_spec (iter_i iter) (head q)); simpl;
        unfold size_ok in *; lia.
    + unfold plqu_iter_qid. rewrite Hb. simpl. rewrite Hl. simpl.
      eexists. reflexivity.
    + intros v. unfold plqu_iter_put, at_handle. rewrite Hb, Hl. simpl.
      destruct (_ || _); [eexists; reflexivity |].
      destruct (Hput (iter_i iter) v) as [[r q'] ->]. eexists. reflexivity.
    + unfold plqu_iter_set_top, at_handle. rewrite Hb.
      destruct (iter_i iter =? 0); [eexists; reflexivity |].
      rewrite Hl. eexists. reflexivity.
Qed.

(** ** Walking a queue *)

Lemma live_from_nil q : forall n i,
  (forall j, i < j <= i + Z.of_nat n -> nil_at q j) -> live_from q i n = [].
Proof.
  induction n as [| n IH]; intros i Hall; simpl; [reflexivity |].
  destruct (Hall (i + 1) ltac:(lia)) as (y & -> & ->).
  apply IH. intros j Hj. apply Hall. lia.
Qed.

Lemma live_from_found q k x : forall n i,
  i < k <= i + Z.of_nat n ->
  (forall j, i < j < k -> nil_at q j) ->
  plqu_get q k = Some x -> plqu_val_nil_p x = false ->
  live_from q i n = (k, x) :: live_from q k (Z.to_nat (i + Z.of_nat n - k)).
Proof.
  induction n as [| n IH]; intros i Hk Hbelow Hg Hnil; [lia |]. simpl.
  destruct (Z.eq_dec k (i + 1)) as [-> | Hne].
  - rewrite Hg, Hnil. do 2 f_equal. lia.
  - destruct (Hbelow (i + 1) ltac:(lia)) as (y & -> & ->).
    rewrite (IH (i + 1)); try assumption; try lia.
    + do 2 f_equal. lia.
    + intros j Hj. apply Hbelow. lia.
Qed.

(** X14: calling [plqu_iter_next] until it returns [false] on an
    iterator bound to a well-formed queue shows, in the order of the
    ids, exactly the ids after the position of the iterator (after
    [head], if that is greater) up to [tail] whose value is not nil,
    each with the value [plqu_get] gives for it; at most
    [tail - head + 1] calls are made. *)
Theorem plqu_iter_all_live pool h q : forall fuel iter,
  iter_q iter = Some h -> pool !! h = Some q -> plqu_ok q ->
  (Z.to_nat (tail q - Z.max (iter_i iter) (head q)) < fuel)%nat ->
  plqu_iter_all fuel pool iter
  = Some (live_from q (Z.max (iter_i iter) (head q))
            (Z.to_nat (tail q - Z.max (iter_i iter) (head q))),
          true).
Proof.
  induction fuel as [| fuel IH]; intros iter Hb Hl Hq Hf; [lia |]. simpl.
  destruct (plqu_iter_next_ok pool iter h q Hb Hl Hq)
    as [(k & x & Hk & Hg & Hnil & Hbelow & ->) | (Hall & ->)]; simpl.
  - rewrite (IH (PlquIter (Some h) k x)); simpl; try assumption;
      try reflexivity.
    + replace (Z.max k (head q)) with k by lia.
      rewrite (live_from_found q k x _ (Z.max (iter_i iter) (head q)));
        try assumption; try lia.
      do 4 f_equal. lia.
    + lia.
  - rewrite live_from_nil; [reflexivity |]. intros j Hj. apply Hall. lia.
Qed.

(** ** The queue as a list *)

Lemma values_from_length q : forall n i,
  (forall j, i < j <= i + Z.of_nat n -> is_Some (plqu_get q j)) ->
  length (values_from q i n) = n.
Proof.
  induction n as [| n IH]; intros i Hall; simpl; [reflexivity |].
  destruct (Hall (i + 1) ltac:(lia)) as [x ->]. simpl. f_equal.
  apply IH. intros j Hj. apply Hall. lia.
Qed.

Lemma values_from_same q q' : forall n i,
  (forall j, i < j <= i + Z.of_nat n -> plqu_get q' j = plqu_get q j) ->
  values_from q' i n = values_from q i n.
Proof.
  induction n as [| n IH]; intros i Hall; simpl; [reflexivity |].
  rewrite (Hall (i + 1)) by lia.
  rewrite (IH (i + 1)) by (intros j Hj; apply Hall; lia). reflexivity.
Qed.

Lemma values_from_snoc q x : forall n i,
  (forall j, i < j <= i + Z.of_nat n -> is_Some (plqu_get q j)) ->
  plqu_get q (i + Z.of_nat n + 1) = Some x ->
  values_from q i (S n) = values_from q i n ++ [x].
Proof.
  induction n as [| n IH]; intros i Hall Hx.
  - simpl in *. rewrite Z.add_0_r in Hx. now rewrite Hx.
  - change (values_from q i (S (S n)))
      with (match plqu_get q (i + 1) with
            | Some y => y :: values_from q (i + 1) (S n)
            | None => values_from q (i + 1) (S n)
            end).
    rewrite (IH (i + 1)).
    + simpl. now destruct (plqu_get q (i + 1)).
    + intros j Hj. apply Hall. lia.
    + rewrite <- Hx. f_equal. lia.
Qed.

Lemma values_from_put q q' v k : forall n i,
  (forall j, i < j <= i + Z.of_nat n -> is_Some (plqu_get q j)) ->
  i < k <= i + Z.of_nat n ->
  plqu_get q' k = Some v ->
  (forall j, j <> k -> plqu_get q' j = plqu_get q j) ->
  values_from q' i n = <[Z.to_nat (k - i - 1) := v]> (values_from q i n).
Proof.
  induction n as [| n IH]; intros i Hall Hk Hv Hkeep; [lia |]. simpl.
  destruct (Hall (i + 1) ltac:(lia)) as [x Hx]. rewrite Hx.
  destruct (Z.eq_dec k (i + 1)) as [-> | Hne].
  - rewrite Hv. replace (i + 1 - i - 1) with 0 by lia. simpl. f_equal.
    apply values_from_same. intros j Hj. apply Hkeep. lia.
  - rewrite Hkeep, Hx by lia.
    replace (Z.to_nat (k - i - 1)) with (S (Z.to_nat (k - (i + 1) - 1)))
      by lia.
    simpl. f_equal. apply IH; try assumption; try lia.
    intros j Hj. apply Hall. lia.
Qed.

Lemma plqu_ok_live_defined q j :
  plqu_ok q -> head q < j <= tail q -> is_Some (plqu_get q j).
Proof.
  intros Hq Hj. destruct (plqu_get_live q j Hq Hj) as (x & -> & _).
  eexists. reflexivity.
Qed.

(** X16: a well-formed queue stands for the list of the values at its
    ids [head + 1] to [tail], which has [tail - head] elements.
    [plqu_add] with memory at hand puts its value at the end of that
    list, [plqu_pop] on a queue that is not empty takes the first
    element off and returns it, and [plqu_put] at a live id [i]
    replaces the element of index [i - head - 1]. *)
Theorem plqu_values_spec q :
  plqu_ok q ->
  Z.of_nat (length (plqu_values q)) = tail q - head q
  /\ (forall junk v id q',
        tail q + 1 < 2 ^ size_bits -> tail q - head q < 2 ^ 63 ->
        plqu_add (Some junk) q v = Some (id, q') ->
        plqu_values q' = plqu_values q ++ [v])
  /\ (forall x q',
        head q < tail q -> plqu_pop q = Some (x, q') ->
        plqu_values q = x :: plqu_values q')
  /\ (forall i v r q',
        head q < i <= tail q -> plqu_put q i v = Some (r, q') ->
        plqu_values q'
        = <[Z.to_nat (i - head q - 1) := v]> (plqu_values q)).
Proof.
  intros Hq. pose proof Hq as (Hz & Hh & Ht & Hle & Hw).
  assert (forall j, head q < j <= head q + Z.of_nat (Z.to_nat (tail q - head q))
                    -> is_Some (plqu_get q j)) as Hdef.
  { intros j Hj. apply plqu_ok_live_defined; [assumption | lia]. }
  unfold plqu_values. conjs.
  - rewrite values_from_length by assumption. lia.
  - intros junk v id q' Hnowrap Hsmall Hadd.
    destruct (plqu_add_ok junk q v Hq Hsmall Hnowrap)
      as (q1 & Ha1 & _ & Hh1 & Ht1 & Hv1 & Hkeep).
    assert (q' = q1) as -> by congruence. rewrite Hh1, Ht1.
    replace (Z.to_nat (tail q + 1 - head q))
      with (S (Z.to_nat (tail q - head q))) by lia.
    rewrite (values_from_snoc q1 v).
    + f_equal. apply values_from_same. intros j Hj. apply Hkeep. lia.
    + intros j Hj. rewrite Hkeep by lia. now apply Hdef.
    + rewrite <- Hv1. f_equal. lia.
  - intros x q' Hlt Hpop.
    destruct (plqu_pop_step q Hq Hlt) as (y & Hg & Hp & _ & Hkeep).
    assert (x = y /\ q' = Plqu (z q) (a q) (head q + 1) (tail q)) as [-> ->]
        by (split; congruence).
    simpl. replace (Z.to_nat (tail q - head q))
      with (S (Z.to_nat (tail q - (head q + 1)))) by lia.
    simpl. rewrite Hg. f_equal. symmetry. apply values_from_same.
    intros j Hj. apply Hkeep. lia.
  - intros i v r q' Hi Hput.
    destruct (plqu_put_live q i v Hq Hi)
      as (q1 & Hp1 & _ & _ & _ & Hh1 & Ht1 & Hv1 & Hkeep).
    assert (q' = q1) as -> by congruence. rewrite Hh1, Ht1.
    apply values_from_put; try assumption. lia.
Qed.

Lemma reachable_make_plqu_times n : forall pool pool',
  reachable pool -> make_plqu_times n pool = Some pool' -> reachable pool'.
Proof.
  induction n as [| n IH]; intros pool pool' Hreach Hm; simpl in Hm.
  - now injection Hm as <-.
  - destruct (make_plqu pool) as [[h p1] |] eqn:Hmake; [| discriminate].
    simpl in Hm. apply (IH p1); [| assumption].
    apply (reachable_step pool call_make_plqu).
    + assumption.
    + intros h' Hh'. discriminate.
    + simpl. now rewrite Hmake.
Qed.

End Plqu.

(** * The properties at concrete queues

    Values are integers here, 0 being nil. *)

(** C1: the pool after 256 calls of [make_plqu]. *)
Lemma make_plqu_pool_exhausted_witness :
  make_plqu_times 256 (@_pool Z)
  = Some (replicate POOL_COUNT (Plqu (2 ^ 64 - 1) [] 0 0))
  /\ length (replicate POOL_COUNT (@Plqu Z (2 ^ 64 - 1) [] 0 0)) = POOL_COUNT
  /\ Forall in_use (replicate POOL_COUNT (@Plqu Z (2 ^ 64 - 1) [] 0 0))
  /\ _next_free (replicate POOL_COUNT (@Plqu Z (2 ^ 64 - 1) [] 0 0)) = POOL_COUNT
  /\ make_plqu (replicate POOL_COUNT (@Plqu Z (2 ^ 64 - 1) [] 0 0)) = None.
Proof.
  assert (length (replicate POOL_COUNT (@Plqu Z (2 ^ 64 - 1) [] 0 0))
          = POOL_COUNT) as Hlen by reflexivity.
  assert (Forall in_use (replicate POOL_COUNT (@Plqu Z (2 ^ 64 - 1) [] 0 0)))
    as Hall by (apply Forall_replicate; vm_compute; discriminate).
  split; [vm_compute; reflexivity |].
  split; [exact Hlen |]. split; [exact Hall |].
  exact (make_plqu_pool_exhausted _ Hlen Hall).
Defined.

(** C2: a full queue of 8 whose ids 4 to 11 wrap around the end of the
    buffer. *)
Lemma plqu_add_growth_keeps_values_witness :
  plqu_ok (Plqu 7 [109; 110; 111; 104; 105; 106; 107; 108] 3 11)
  /\ wrap (11 - 3) >= wrap (7 + 1)
  /\ plqu_add (Some (fun _ => 0))
       (Plqu 7 [109; 110; 111; 104; 105; 106; 107; 108] 3 11) 112
     = Some (12, Plqu 15 [109; 110; 111; 104; 105; 106; 107; 108;
                          109; 110; 111; 112; 105; 106; 107; 108] 3 12)
  /\ forall i, 3 < i <= 11 ->
       exists x,
         plqu_get 0 (Plqu 7 [109; 110; 111; 104; 105; 106; 107; 108] 3 11) i
         = Some x
         /\ [109; 110; 111; 104; 105; 106; 107; 108;
             109; 110; 111; 112; 105; 106; 107; 108]
            !! Z.to_nat ((i - 1) mod 16) = Some x
         /\ (11 + 1 < 2 ^ size_bits ->
             plqu_get 0 (Plqu 15 [109; 110; 111; 104; 105; 106; 107; 108;
                                  109; 110; 111; 112; 105; 106; 107; 108] 3 12) i
             = Some x).
Proof.
  assert (plqu_ok (Plqu 7 [109; 110; 111; 104; 105; 106; 107; 108] 3 11))
    as Hq.
  { split; [split; [right; exists 3; split; [lia | reflexivity] | reflexivity] |].
    unfold size_ok, cap, size_bits. simpl. lia. }
  assert (wrap (11 - 3) >= wrap (7 + 1)) as Hfull by (vm_compute; discriminate).
  assert (plqu_add (Some (fun _ => 0))
            (Plqu 7 [109; 110; 111; 104; 105; 106; 107; 108] 3 11) 112
          = Some (12, Plqu 15 [109; 110; 111; 104; 105; 106; 107; 108;
                               109; 110; 111; 112; 105; 106; 107; 108] 3 12))
    as Hadd by reflexivity.
  split; [exact Hq |]. split; [exact Hfull |]. split; [exact Hadd |].
  exact (proj2 (proj2 (plqu_add_growth_keeps_values 0 _ _ _ _ _ Hq Hfull Hadd))).
Defined.

(** C4: a full queue of 8 with the ids 1 to 8, and no memory to be
    had. *)
Lemma plqu_add_realloc_failure_witness :
  wrap (8 - 0) >= wrap (7 + 1)
  /\ plqu_add None (Plqu 7 [1; 2; 3; 4; 5; 6; 7; 8] 0 8) 9
     = Some (0, Plqu 7 [1; 2; 3; 4; 5; 6; 7; 8] 0 8).
Proof.
  assert (wrap (8 - 0) >= wrap (7 + 1)) as Hfull
      by (vm_compute; discriminate).
  split; [exact Hfull |].
  exact (plqu_add_realloc_failure (Plqu 7 [1; 2; 3; 4; 5; 6; 7; 8] 0 8) 9 Hfull).
Defined.

(** C7: popping a front that holds nil. *)
Lemma plqu_pop_front_witness :
  plqu_ok (Plqu 7 [0; 5; 9; 9; 9; 9; 9; 9] 0 2)
  /\ 0 < 2
  /\ exists x,
       plqu_get 0 (Plqu 7 [0; 5; 9; 9; 9; 9; 9; 9] 0 2) (0 + 1) = Some x
       /\ plqu_pop 0 (Plqu 7 [0; 5; 9; 9; 9; 9; 9; 9] 0 2)
          = Some (x, Plqu 7 [0; 5; 9; 9; 9; 9; 9; 9] (0 + 1) 2).
Proof.
  assert (plqu_ok (Plqu 7 [0; 5; 9; 9; 9; 9; 9; 9] 0 2)) as Hq.
  { split; [split; [right; exists 3; split; [lia | reflexivity] | reflexivity] |].
    unfold size_ok, cap, size_bits. simpl. lia. }
  assert (0 < 2) as Hlt by lia.
  split; [exact Hq |]. split; [exact Hlt |].
  exact (proj1 (plqu_pop_front 0 _ Hq) Hlt).
Defined.

(** C3: twenty values into a queue without a buffer, through the sizes
    8, 16 and 32. *)
Lemma plqu_add_all_fresh_witness :
  inuse_ok (@Plqu Z (2 ^ 64 - 1) [] 0 0)
  /\ Z.of_nat (length ((fun k => (fun _ : nat => 0, k)) <$> seqZ 101 20))
     <= 2 ^ 63
  /\ exists q',
       plqu_add_all (Plqu (2 ^ 64 - 1) [] 0 0)
         ((fun k => (fun _ : nat => 0, k)) <$> seqZ 101 20)
       = Some (seqZ 1 (Z.of_nat
                 (length ((fun k => (fun _ : nat => 0, k)) <$> seqZ 101 20))),
               q')
       /\ head q' = 0
       /\ tail q'
          = Z.of_nat (length ((fun k => (fun _ : nat => 0, k)) <$> seqZ 101 20))
       /\ forall (k : nat) v,
            ((fun k => (fun _ : nat => 0, k)) <$> seqZ 101 20).*2 !! k = Some v ->
            plqu_get 0 q' (Z.of_nat k + 1) = Some v.
Proof.
  assert (inuse_ok (@Plqu Z (2 ^ 64 - 1) [] 0 0)) as Hq
      by (split; [now left | reflexivity]).
  assert (Z.of_nat (length ((fun k => (fun _ : nat => 0, k)) <$> seqZ 101 20))
          <= 2 ^ 63) as Hlen by (vm_compute; discriminate).
  split; [exact Hq |]. split; [exact Hlen |].
  exact (plqu_add_all_fresh 0 _ _ Hq eq_refl eq_refl Hlen).
Defined.

(** C5: an iterator that ran off a queue of three nils still makes its
    position the front. *)
Lemma plqu_iter_set_top_exhausted :
  plqu_iter_next (Z.eqb 0)
    (<[0%nat := Plqu 7 [0; 0; 0; 9; 9; 9; 9; 9] 0 3]> _pool)
    (PlquIter (Some 0%nat) 0 0)
  = Some (false, PlquIter (Some 0%nat) 4 0,
          <[0%nat := Plqu 7 [0; 0; 0; 9; 9; 9; 9; 9] 0 3]> _pool)
  /\ plqu_iter_qid
       (<[0%nat := Plqu 7 [0; 0; 0; 9; 9; 9; 9; 9] 0 3]> _pool)
       (PlquIter (Some 0%nat) 4 0)
     = Some 0
  /\ plqu_iter_set_top
       (<[0%nat := Plqu 7 [0; 0; 0; 9; 9; 9; 9; 9] 0 3]> _pool)
       (PlquIter (Some 0%nat) 4 0)
     = Some (0, <[0%nat := Plqu 7 [0; 0; 0; 9; 9; 9; 9; 9] 3 3]> _pool)
  /\ plqu_iter_set_top
       (<[0%nat := Plqu 7 [0; 0; 0; 9; 9; 9; 9; 9] 0 3]> _pool)
       (PlquIter (Some 0%nat) 4 0)
     <> Some (-1, <[0%nat := Plqu 7 [0; 0; 0; 9; 9; 9; 9; 9] 0 3]> _pool).
Proof.
  split; [reflexivity |]. split; [reflexivity |]. split; [reflexivity |].
  vm_compute. discriminate.
Defined.

(** C5: after [plqu_iter_next] found id 4. *)
Lemma plqu_iter_set_top_spec_witness :
  iter_q (PlquIter (Some 0%nat) 0 0) = Some 0%nat
  /\ <[0%nat := Plqu 7 [5; 0; 0; 7; 9; 9; 9; 9] 1 4]> _pool !! 0%nat
     = Some (Plqu 7 [5; 0; 0; 7; 9; 9; 9; 9] 1 4)
  /\ size_ok 1 /\ size_ok 4
  /\ plqu_iter_next (Z.eqb 0)
       (<[0%nat := Plqu 7 [5; 0; 0; 7; 9; 9; 9; 9] 1 4]> _pool)
       (PlquIter (Some 0%nat) 0 0)
     = Some (true, PlquIter (Some 0%nat) 4 7,
             <[0%nat := Plqu 7 [5; 0; 0; 7; 9; 9; 9; 9] 1 4]> _pool)
  /\ 1 < 4 <= 4
  /\ plqu_iter_set_top
       (<[0%nat := Plqu 7 [5; 0; 0; 7; 9; 9; 9; 9] 1 4]> _pool)
       (PlquIter (Some 0%nat) 4 7)
     = Some (0, <[0%nat := Plqu 7 [5; 0; 0; 7; 9; 9; 9; 9] (4 - 1) 4]>
                  (<[0%nat := Plqu 7 [5; 0; 0; 7; 9; 9; 9; 9] 1 4]> _pool)).
Proof.
  assert (size_ok 1) as H1 by (unfold size_ok, size_bits; lia).
  assert (size_ok 4) as H4 by (unfold size_ok, size_bits; lia).
  assert (plqu_iter_next (Z.eqb 0)
            (<[0%nat := Plqu 7 [5; 0; 0; 7; 9; 9; 9; 9] 1 4]> _pool)
            (PlquIter (Some 0%nat) 0 0)
          = Some (true, PlquIter (Some 0%nat) 4 7,
                  <[0%nat := Plqu 7 [5; 0; 0; 7; 9; 9; 9; 9] 1 4]> _pool))
    as Hnext by reflexivity.
  split; [reflexivity |]. split; [reflexivity |].
  split; [exact H1 |]. split; [exact H4 |]. split; [exact Hnext |].
  exact (proj2 (proj2 (plqu_iter_set_top_spec (Z.eqb 0)
                         (<[0%nat := Plqu 7 [5; 0; 0; 7; 9; 9; 9; 9] 1 4]> _pool)
                         (PlquIter (Some 0%nat) 4 7)))
           0%nat (Plqu 7 [5; 0; 0; 7; 9; 9; 9; 9] 1 4)
           (PlquIter (Some 0%nat) 0 0) eq_refl eq_refl H1 H4 Hnext).
Defined.

(** C6: an iterator behind [head = 1] passes the nils at ids 2 and 3
    and stops at id 4. *)
Lemma plqu_iter_next_spec_witness :
  iter_q (PlquIter (Some 0%nat) 0 0) = Some 0%nat
  /\ <[0%nat := Plqu 7 [5; 0; 0; 7; 9; 9; 9; 9] 1 4]> _pool !! 0%nat
     = Some (Plqu 7 [5; 0; 0; 7; 9; 9; 9; 9] 1 4)
  /\ plqu_ok (Plqu 7 [5; 0; 0; 7; 9; 9; 9; 9] 1 4)
  /\ ((exists k x,
          Z.max 0 1 < k <= 4
          /\ plqu_get 0 (Plqu 7 [5; 0; 0; 7; 9; 9; 9; 9] 1 4) k = Some x
          /\ (0 =? x) = false
          /\ (forall j, Z.max 0 1 < j < k ->
                nil_at 0 (Z.eqb 0) (Plqu 7 [5; 0; 0; 7; 9; 9; 9; 9] 1 4) j)
          /\ plqu_iter_next (Z.eqb 0)
               (<[0%nat := Plqu 7 [5; 0; 0; 7; 9; 9; 9; 9] 1 4]> _pool)
               (PlquIter (Some 0%nat) 0 0)
             = Some (true, PlquIter (Some 0%nat) k x,
                     <[0%nat := Plqu 7 [5; 0; 0; 7; 9; 9; 9; 9] 1 4]> _pool))
      \/ ((forall j, Z.max 0 1 < j <= 4 ->
             nil_at 0 (Z.eqb 0) (Plqu 7 [5; 0; 0; 7; 9; 9; 9; 9] 1 4) j)
          /\ plqu_iter_next (Z.eqb 0)
               (<[0%nat := Plqu 7 [5; 0; 0; 7; 9; 9; 9; 9] 1 4]> _pool)
               (PlquIter (Some 0%nat) 0 0)
             = Some (false, PlquIter (Some 0%nat) (wrap (4 + 1)) 0,
                     <[0%nat := Plqu 7 [5; 0; 0; 7; 9; 9; 9; 9] 1 4]> _pool))).
Proof.
  assert (plqu_ok (Plqu 7 [5; 0; 0; 7; 9; 9; 9; 9] 1 4)) as Hq.
  { split; [split; [right; exists 3; split; [lia | reflexivity] | reflexivity] |].
    unfold size_ok, cap, size_bits. simpl. lia. }
  split; [reflexivity |]. split; [reflexivity |]. split; [exact Hq |].
  exact (proj2 (plqu_iter_next_spec 0 (Z.eqb 0)
                  (<[0%nat := Plqu 7 [5; 0; 0; 7; 9; 9; 9; 9] 1 4]> _pool)
                  (PlquIter (Some 0%nat) 0 0))
           0%nat (Plqu 7 [5; 0; 0; 7; 9; 9; 9; 9] 1 4) eq_refl eq_refl Hq).
Defined.

(** C8: the pool after the first [make_plqu]: slot 0 is in use and has
    no buffer. *)
Lemma in_use_without_buffer :
  ~ (forall (pool : list (@plqu_s Z)) h q,
       reachable 0 (Z.eqb 0) pool -> pool !! h = Some q -> in_use q ->
       exists k, 0 <= k /\ cap q = 2 ^ k /\ z q = cap q - 1).
Proof.
  intros Hclaim.
  assert (reachable 0 (Z.eqb 0) (<[0%nat := Plqu (2 ^ 64 - 1) [] 0 0]> _pool))
    as Hreach.
  { apply (reachable_step 0 (Z.eqb 0) _pool call_make_plqu).
    - apply reachable_init.
    - intros h Hh. discriminate.
    - reflexivity. }
  destruct (Hclaim _ 0%nat (Plqu (2 ^ 64 - 1) [] 0 0) Hreach eq_refl)
    as (k & Hk & Hcap & _).
  - vm_compute. discriminate.
  - pose proof (Z.pow_pos_nonneg 2 k ltac:(lia) Hk) as Hpos.
    unfold cap in Hcap. simpl in Hcap. lia.
Defined.

(** C8: the pool after [make_plqu] and one [plqu_add]. *)
Lemma reachable_in_use_capacity_witness :
  reachable 0 (Z.eqb 0) (<[0%nat := Plqu 7 [5; 0; 0; 0; 0; 0; 0; 0] 0 1]> _pool)
  /\ <[0%nat := Plqu 7 [5; 0; 0; 0; 0; 0; 0; 0] 0 1]> _pool !! 0%nat
     = Some (Plqu 7 [5; 0; 0; 0; 0; 0; 0; 0] 0 1)
  /\ in_use (Plqu 7 [5; 0; 0; 0; 0; 0; 0; 0] 0 1)
  /\ 7 = wrap (cap (Plqu 7 [5; 0; 0; 0; 0; 0; 0; 0] 0 1) - 1)
  /\ (cap (Plqu 7 [5; 0; 0; 0; 0; 0; 0; 0] 0 1) = 0
      \/ exists k, 3 <= k <= 63
                   /\ cap (Plqu 7 [5; 0; 0; 0; 0; 0; 0; 0] 0 1) = 2 ^ k).
Proof.
  assert (reachable 0 (Z.eqb 0)
            (<[0%nat := Plqu 7 [5; 0; 0; 0; 0; 0; 0; 0] 0 1]> _pool)) as Hreach.
  { apply (reachable_step 0 (Z.eqb 0)
             (<[0%nat := Plqu (2 ^ 64 - 1) [] 0 0]> _pool)
             (call_plqu_add (Some (fun _ => 0)) 0%nat 5)).
    - apply (reachable_step 0 (Z.eqb 0) _pool call_make_plqu).
      + apply reachable_init.
      + intros h Hh. discriminate.
      + reflexivity.
    - intros h Hh. injection Hh as <-. eexists. split; [reflexivity |].
      vm_compute. discriminate.
    - reflexivity. }
  assert (in_use (Plqu 7 [5; 0; 0; 0; 0; 0; 0; 0] 0 1)) as Hu
      by (vm_compute; discriminate).
  split; [exact Hreach |]. split; [reflexivity |]. split; [exact Hu |].
  exact (reachable_in_use_capacity 0 (Z.eqb 0) _ 0%nat _ Hreach eq_refl Hu).
Defined.

(** C9: the one queue in use is given back and handed out again with
    its buffer of 8. *)
Lemma free_plqu_make_plqu_empty_witness :
  reachable 0 (Z.eqb 0) (<[0%nat := Plqu 7 [5; 0; 0; 0; 0; 0; 0; 0] 0 1]> _pool)
  /\ <[0%nat := Plqu 7 [5; 0; 0; 0; 0; 0; 0; 0] 0 1]> _pool !! 0%nat
     = Some (Plqu 7 [5; 0; 0; 0; 0; 0; 0; 0] 0 1)
  /\ in_use (Plqu 7 [5; 0; 0; 0; 0; 0; 0; 0] 0 1)
  /\ exists h' pool' q0 q',
       make_plqu (<[0%nat := free_plqu (Plqu 7 [5; 0; 0; 0; 0; 0; 0; 0] 0 1)]>
                    (<[0%nat := Plqu 7 [5; 0; 0; 0; 0; 0; 0; 0] 0 1]> _pool))
       = Some (h', pool')
       /\ <[0%nat := free_plqu (Plqu 7 [5; 0; 0; 0; 0; 0; 0; 0] 0 1)]>
            (<[0%nat := Plqu 7 [5; 0; 0; 0; 0; 0; 0; 0] 0 1]> _pool) !! h'
          = Some q0
       /\ ~ in_use q0
       /\ pool' !! h' = Some q' /\ in_use q'
       /\ a q' = a q0
       /\ head q' = 0 /\ tail q' = 0
       /\ forall i, plqu_get 0 q' i = Some 0.
Proof.
  assert (reachable 0 (Z.eqb 0)
            (<[0%nat := Plqu 7 [5; 0; 0; 0; 0; 0; 0; 0] 0 1]> _pool)) as Hreach.
  { apply (reachable_step 0 (Z.eqb 0)
             (<[0%nat := Plqu (2 ^ 64 - 1) [] 0 0]> _pool)
             (call_plqu_add (Some (fun _ => 0)) 0%nat 5)).
    - apply (reachable_step 0 (Z.eqb 0) _pool call_make_plqu).
      + apply reachable_init.
      + intros h Hh. discriminate.
      + reflexivity.
    - intros h Hh. injection Hh as <-. eexists. split; [reflexivity |].
      vm_compute. discriminate.
    - reflexivity. }
  assert (in_use (Plqu 7 [5; 0; 0; 0; 0; 0; 0; 0] 0 1)) as Hu
      by (vm_compute; discriminate).
  split; [exact Hreach |]. split; [reflexivity |]. split; [exact Hu |].
  exact (free_plqu_make_plqu_empty 0 (Z.eqb 0) _ 0%nat _ Hreach eq_refl Hu).
Defined.

(** C10: three values popped of five, and an iterator left at id 2. *)
Lemma plqu_iter_set_top_no_clamp_witness :
  iter_q (PlquIter (Some 0%nat) 2 2) = Some 0%nat
  /\ <[0%nat := Plqu 7 [1; 2; 3; 4; 5; 9; 9; 9] 3 5]> _pool !! 0%nat
     = Some (Plqu 7 [1; 2; 3; 4; 5; 9; 9; 9] 3 5)
  /\ 2 <> 0 /\ size_ok 2
  /\ plqu_iter_set_top
       (<[0%nat := Plqu 7 [1; 2; 3; 4; 5; 9; 9; 9] 3 5]> _pool)
       (PlquIter (Some 0%nat) 2 2)
     = Some (0, <[0%nat := Plqu 7 [1; 2; 3; 4; 5; 9; 9; 9] (2 - 1) 5]>
                  (<[0%nat := Plqu 7 [1; 2; 3; 4; 5; 9; 9; 9] 3 5]> _pool))
  /\ (2 <= 3 ->
      2 - 1 < 3
      /\ forall j, 2 <= j <= 3 -> j <= 5 ->
           plqu_get 0 (Plqu 7 [1; 2; 3; 4; 5; 9; 9; 9] 3 5) j = Some 0
           /\ 2 - 1 < j <= 5
           /\ plqu_get 0 (Plqu 7 [1; 2; 3; 4; 5; 9; 9; 9] (2 - 1) 5) j
              = array_get [1; 2; 3; 4; 5; 9; 9; 9] (Z.land (wrap (j - 1)) 7)).
Proof.
  assert (2 <> 0) as Hne by lia.
  assert (size_ok 2) as Hs by (unfold size_ok, size_bits; lia).
  split; [reflexivity |]. split; [reflexivity |].
  split; [exact Hne |]. split; [exact Hs |].
  pose proof (plqu_iter_set_top_no_clamp 0
                (<[0%nat := Plqu 7 [1; 2; 3; 4; 5; 9; 9; 9] 3 5]> _pool)
                (PlquIter (Some 0%nat) 2 2) 0%nat
                (Plqu 7 [1; 2; 3; 4; 5; 9; 9; 9] 3 5)
                eq_refl eq_refl Hne Hs) as (Hset & _ & Hstale & _).
  split; [exact Hset | exact Hstale].
Defined.

(** * The further properties at concrete queues *)

(** Proves a concrete queue of 8 well formed. *)
Ltac plqu_ok_8 :=
  split;
  [split; [right; exists 3; split; [lia | reflexivity] | reflexivity]
  | unfold size_ok, cap, size_bits; simpl; lia].

(** The pool after [make_plqu] and one [plqu_add]. *)
Lemma reachable_one_added :
  reachable 0 (Z.eqb 0) (<[0%nat := Plqu 7 [5; 0; 0; 0; 0; 0; 0; 0] 0 1]> _pool).
Proof.
  apply (reachable_step 0 (Z.eqb 0)
           (<[0%nat := Plqu (2 ^ 64 - 1) [] 0 0]> _pool)
           (call_plqu_add (Some (fun _ => 0)) 0%nat 5)).
  - apply (reachable_step 0 (Z.eqb 0) _pool call_make_plqu).
    + apply reachable_init.
    + intros h Hh. discriminate.
    + reflexivity.
  - intros h Hh. injection Hh as <-. eexists. split; [reflexivity |].
    vm_compute. discriminate.
  - reflexivity.
Qed.

(** The pool with every slot taken. *)
Lemma reachable_full :
  reachable 0 (Z.eqb 0) (replicate POOL_COUNT (Plqu (2 ^ 64 - 1) [] 0 0)).
Proof.
  apply (reachable_make_plqu_times 0 (Z.eqb 0) 256 _pool).
  - apply reachable_init.
  - vm_compute. reflexivity.
Qed.

(** X1: a nil written over id 3 of a queue with the ids 2 to 5. *)
Lemma plqu_put_get_witness :
  plqu_ok (Plqu 7 [1; 2; 3; 4; 5; 9; 9; 9] 1 5)
  /\ 1 < 3 <= 5
  /\ exists q',
       plqu_put (Plqu 7 [1; 2; 3; 4; 5; 9; 9; 9] 1 5) 3 0 = Some (0, q')
       /\ z q' = 7 /\ cap q' = cap (Plqu 7 [1; 2; 3; 4; 5; 9; 9; 9] 1 5)
       /\ head q' = 1 /\ tail q' = 5
       /\ plqu_get 0 q' 3 = Some 0
       /\ forall j, j <> 3 ->
            plqu_get 0 q' j
            = plqu_get 0 (Plqu 7 [1; 2; 3; 4; 5; 9; 9; 9] 1 5) j.
Proof.
  assert (plqu_ok (Plqu 7 [1; 2; 3; 4; 5; 9; 9; 9] 1 5)) as Hq by plqu_ok_8.
  assert (1 < 3 <= 5) as Hi by lia.
  split; [exact Hq |]. split; [exact Hi |].
  exact (proj1 (plqu_put_get 0 _ 3 0 Hq) Hi).
Defined.

(** X2: the front of a queue with the ids 2 to 5. *)
Lemma plqu_top_get_pop_witness :
  size_ok 1
  /\ plqu_top 0 (Plqu 7 [1; 2; 3; 4; 5; 9; 9; 9] 1 5)
     = plqu_get 0 (Plqu 7 [1; 2; 3; 4; 5; 9; 9; 9] 1 5) (1 + 1)
  /\ fst <$> plqu_pop 0 (Plqu 7 [1; 2; 3; 4; 5; 9; 9; 9] 1 5)
     = plqu_top 0 (Plqu 7 [1; 2; 3; 4; 5; 9; 9; 9] 1 5).
Proof.
  assert (size_ok 1) as Hh by (unfold size_ok, size_bits; lia).
  split; [exact Hh |].
  pose proof (plqu_top_get_pop 0 (Plqu 7 [1; 2; 3; 4; 5; 9; 9; 9] 1 5) Hh)
    as (Htop & Hpop & _).
  split; [exact Htop | exact Hpop].
Defined.

(** X3: twenty values through a queue without a buffer. *)
Lemma plqu_add_all_pop_all_witness :
  plqu_ok (@Plqu Z (2 ^ 64 - 1) [] 0 0)
  /\ 0 + Z.of_nat (length ((fun k => (fun _ : nat => 0, k)) <$> seqZ 101 20))
     <= 2 ^ 63
  /\ exists ids q1 q2,
       plqu_add_all (Plqu (2 ^ 64 - 1) [] 0 0)
         ((fun k => (fun _ : nat => 0, k)) <$> seqZ 101 20)
       = Some (ids, q1)
       /\ plqu_pop_all 0
            (length ((fun k => (fun _ : nat => 0, k)) <$> seqZ 101 20)) q1
          = Some (((fun k => (fun _ : nat => 0, k)) <$> seqZ 101 20).*2, q2)
       /\ head q2 = tail q2
       /\ plqu_pop 0 q2 = Some (0, q2).
Proof.
  assert (plqu_ok (@Plqu Z (2 ^ 64 - 1) [] 0 0)) as Hq.
  { split; [split; [now left | reflexivity] |].
    unfold size_ok, cap, size_bits. simpl. lia. }
  assert (0 + Z.of_nat (length ((fun k => (fun _ : nat => 0, k))
                                  <$> seqZ 101 20)) <= 2 ^ 63) as Hlen
      by (vm_compute; discriminate).
  split; [exact Hq |]. split; [exact Hlen |].
  exact (plqu_add_all_pop_all 0 _ _ Hq eq_refl Hlen).
Defined.

(** X4: a queue with the ids 2 to 5 after a [plqu_pop]. *)
Lemma plqu_ok_kept_witness :
  plqu_ok (Plqu 7 [1; 2; 3; 4; 5; 9; 9; 9] 1 5)
  /\ forall x q',
       plqu_pop 0 (Plqu 7 [1; 2; 3; 4; 5; 9; 9; 9] 1 5) = Some (x, q') ->
       plqu_ok q'.
Proof.
  assert (plqu_ok (Plqu 7 [1; 2; 3; 4; 5; 9; 9; 9] 1 5)) as Hq by plqu_ok_8.
  split; [exact Hq |].
  exact (proj1 (proj2 (plqu_ok_kept 0 _ Hq))).
Defined.

(** X5: slot 0 is taken, slot 1 is free. *)
Lemma make_plqu_first_free_witness :
  reachable 0 (Z.eqb 0) (<[0%nat := Plqu 7 [5; 0; 0; 0; 0; 0; 0; 0] 0 1]> _pool)
  /\ <[0%nat := Plqu 7 [5; 0; 0; 0; 0; 0; 0; 0] 0 1]> _pool !! 1%nat
     = Some (Plqu 0 [] 0 0)
  /\ ~ in_use (@Plqu Z 0 [] 0 0)
  /\ exists h pool' q0 q',
       make_plqu (<[0%nat := Plqu 7 [5; 0; 0; 0; 0; 0; 0; 0] 0 1]> _pool)
       = Some (h, pool')
       /\ (h <= 1)%nat
       /\ (forall i q, (i < h)%nat ->
             <[0%nat := Plqu 7 [5; 0; 0; 0; 0; 0; 0; 0] 0 1]> _pool !! i
             = Some q -> in_use q)
       /\ <[0%nat := Plqu 7 [5; 0; 0; 0; 0; 0; 0; 0] 0 1]> _pool !! h = Some q0
       /\ ~ in_use q0
       /\ pool' !! h = Some q' /\ in_use q'
       /\ a q' = a q0 /\ head q' = 0 /\ tail q' = 0
       /\ forall i, i <> h ->
            pool' !! i
            = <[0%nat := Plqu 7 [5; 0; 0; 0; 0; 0; 0; 0] 0 1]> _pool !! i.
Proof.
  assert (~ in_use (@Plqu Z 0 [] 0 0)) as Hfree
      by (intros Hu; now apply Hu).
  split; [exact reachable_one_added |]. split; [reflexivity |].
  split; [exact Hfree |].
  exact (make_plqu_first_free 0 (Z.eqb 0) _ 1%nat _
           reachable_one_added eq_refl Hfree).
Defined.

(** X6: handle 7 of the full pool is given back. *)
Lemma free_plqu_one_of_full_witness :
  reachable 0 (Z.eqb 0) (replicate POOL_COUNT (Plqu (2 ^ 64 - 1) [] 0 0))
  /\ Forall in_use (replicate POOL_COUNT (@Plqu Z (2 ^ 64 - 1) [] 0 0))
  /\ replicate POOL_COUNT (@Plqu Z (2 ^ 64 - 1) [] 0 0) !! 7%nat
     = Some (Plqu (2 ^ 64 - 1) [] 0 0)
  /\ make_plqu (<[7%nat := free_plqu (Plqu (2 ^ 64 - 1) [] 0 0)]>
                  (replicate POOL_COUNT (@Plqu Z (2 ^ 64 - 1) [] 0 0)))
     = Some (7%nat, <[7%nat := Plqu (2 ^ 64 - 1) [] 0 0]>
                      (replicate POOL_COUNT (Plqu (2 ^ 64 - 1) [] 0 0)))
  /\ make_plqu (<[7%nat := Plqu (2 ^ 64 - 1) [] 0 0]>
                  (replicate POOL_COUNT (@Plqu Z (2 ^ 64 - 1) [] 0 0)))
     = None.
Proof.
  assert (Forall in_use (replicate POOL_COUNT (@Plqu Z (2 ^ 64 - 1) [] 0 0)))
    as Hall by (apply Forall_replicate; vm_compute; discriminate).
  split; [exact reachable_full |]. split; [exact Hall |].
  split; [reflexivity |].
  exact (free_plqu_one_of_full 0 (Z.eqb 0) _ 7%nat _
           reachable_full Hall eq_refl).
Defined.

(** X7: the iterator stops at id 4. *)
Lemma plqu_iter_next_qid_witness :
  <[0%nat := Plqu 7 [5; 0; 0; 7; 9; 9; 9; 9] 1 4]> _pool !! 0%nat
  = Some (Plqu 7 [5; 0; 0; 7; 9; 9; 9; 9] 1 4)
  /\ plqu_ok (Plqu 7 [5; 0; 0; 7; 9; 9; 9; 9] 1 4)
  /\ plqu_iter_next (Z.eqb 0)
       (<[0%nat := Plqu 7 [5; 0; 0; 7; 9; 9; 9; 9] 1 4]> _pool)
       (PlquIter (Some 0%nat) 0 0)
     = Some (true, PlquIter (Some 0%nat) 4 7,
             <[0%nat := Plqu 7 [5; 0; 0; 7; 9; 9; 9; 9] 1 4]> _pool)
  /\ plqu_iter_qid (<[0%nat := Plqu 7 [5; 0; 0; 7; 9; 9; 9; 9] 1 4]> _pool)
       (PlquIter (Some 0%nat) 4 7)
     = Some 4.
Proof.
  assert (plqu_ok (Plqu 7 [5; 0; 0; 7; 9; 9; 9; 9] 1 4)) as Hq by plqu_ok_8.
  assert (plqu_iter_next (Z.eqb 0)
            (<[0%nat := Plqu 7 [5; 0; 0; 7; 9; 9; 9; 9] 1 4]> _pool)
            (PlquIter (Some 0%nat) 0 0)
          = Some (true, PlquIter (Some 0%nat) 4 7,
                  <[0%nat := Plqu 7 [5; 0; 0; 7; 9; 9; 9; 9] 1 4]> _pool))
    as Hnext by reflexivity.
  split; [reflexivity |]. split; [exact Hq |]. split; [exact Hnext |].
  exact (proj1 (plqu_iter_next_qid 0 (Z.eqb 0)
                  (<[0%nat := Plqu 7 [5; 0; 0; 7; 9; 9; 9; 9] 1 4]> _pool)
                  (PlquIter (Some 0%nat) 0 0)
                  0%nat (Plqu 7 [5; 0; 0; 7; 9; 9; 9; 9] 1 4) _ _ _
                  eq_refl eq_refl Hq Hnext)).
Defined.

(** X8: a nil written at the id the iterator stopped at. *)
Lemma plqu_iter_put_spec_witness :
  <[0%nat := Plqu 7 [5; 0; 0; 7; 9; 9; 9; 9] 1 4]> _pool !! 0%nat
  = Some (Plqu 7 [5; 0; 0; 7; 9; 9; 9; 9] 1 4)
  /\ plqu_ok (Plqu 7 [5; 0; 0; 7; 9; 9; 9; 9] 1 4)
  /\ 1 < 4 <= 4
  /\ exists q',
       plqu_iter_put (<[0%nat := Plqu 7 [5; 0; 0; 7; 9; 9; 9; 9] 1 4]> _pool)
         (PlquIter (Some 0%nat) 4 7) 0
       = Some (0, <[0%nat := q']>
                    (<[0%nat := Plqu 7 [5; 0; 0; 7; 9; 9; 9; 9] 1 4]> _pool))
       /\ head q' = 1 /\ tail q' = 4
       /\ plqu_get 0 q' 4 = Some 0
       /\ forall j, j <> 4 ->
            plqu_get 0 q' j
            = plqu_get 0 (Plqu 7 [5; 0; 0; 7; 9; 9; 9; 9] 1 4) j.
Proof.
  assert (plqu_ok (Plqu 7 [5; 0; 0; 7; 9; 9; 9; 9] 1 4)) as Hq by plqu_ok_8.
  assert (1 < 4 <= 4) as Hi by lia.
  split; [reflexivity |]. split; [exact Hq |]. split; [exact Hi |].
  exact (proj1 (proj2 (plqu_iter_put_spec 0
                         (<[0%nat := Plqu 7 [5; 0; 0; 7; 9; 9; 9; 9] 1 4]> _pool)
                         (PlquIter (Some 0%nat) 4 7) 0)
                  0%nat (Plqu 7 [5; 0; 0; 7; 9; 9; 9; 9] 1 4)
                  eq_refl eq_refl Hq) Hi).
Defined.

(** X9: id 4, the only one that did not hold nil, is overwritten with
    nil. *)
Lemma plqu_put_nil_skipped_witness :
  <[0%nat := Plqu 7 [5; 0; 0; 7; 9; 9; 9; 9] 1 4]> _pool !! 0%nat
  = Some (Plqu 7 [5; 0; 0; 7; 9; 9; 9; 9] 1 4)
  /\ plqu_ok (Plqu 7 [5; 0; 0; 7; 9; 9; 9; 9] 1 4)
  /\ 1 < 4 <= 4
  /\ (0 =? 0) = true
  /\ exists q' found iter',
       plqu_put (Plqu 7 [5; 0; 0; 7; 9; 9; 9; 9] 1 4) 4 0 = Some (0, q')
       /\ plqu_iter_next (Z.eqb 0)
            (<[0%nat := q']>
               (<[0%nat := Plqu 7 [5; 0; 0; 7; 9; 9; 9; 9] 1 4]> _pool))
            (PlquIter (Some 0%nat) 0 0)
          = Some (found, iter',
                  <[0%nat := q']>
                    (<[0%nat := Plqu 7 [5; 0; 0; 7; 9; 9; 9; 9] 1 4]> _pool))
       /\ (found = true ->
           iter_i iter' <> 4
           /\ plqu_get 0 (Plqu 7 [5; 0; 0; 7; 9; 9; 9; 9] 1 4) (iter_i iter')
              = Some (iter_v iter')
           /\ (0 =? iter_v iter') = false).
Proof.
  assert (plqu_ok (Plqu 7 [5; 0; 0; 7; 9; 9; 9; 9] 1 4)) as Hq by plqu_ok_8.
  assert (1 < 4 <= 4) as Hi by lia.
  split; [reflexivity |]. split; [exact Hq |]. split; [exact Hi |].
  split; [reflexivity |].
  exact (plqu_put_nil_skipped 0 (Z.eqb 0)
           (<[0%nat := Plqu 7 [5; 0; 0; 7; 9; 9; 9; 9] 1 4]> _pool)
           0%nat (Plqu 7 [5; 0; 0; 7; 9; 9; 9; 9] 1 4) 4 0
           (PlquIter (Some 0%nat) 0 0)
           eq_refl Hq Hi eq_refl eq_refl).
Defined.

(** X10: the iterator stops at id 4, and id 4 becomes the front. *)
Lemma plqu_iter_set_top_pop_witness :
  <[0%nat := Plqu 7 [5; 0; 0; 7; 9; 9; 9; 9] 1 4]> _pool !! 0%nat
  = Some (Plqu 7 [5; 0; 0; 7; 9; 9; 9; 9] 1 4)
  /\ plqu_ok (Plqu 7 [5; 0; 0; 7; 9; 9; 9; 9] 1 4)
  /\ plqu_iter_next (Z.eqb 0)
       (<[0%nat := Plqu 7 [5; 0; 0; 7; 9; 9; 9; 9] 1 4]> _pool)
       (PlquIter (Some 0%nat) 0 0)
     = Some (true, PlquIter (Some 0%nat) 4 7,
             <[0%nat := Plqu 7 [5; 0; 0; 7; 9; 9; 9; 9] 1 4]> _pool)
  /\ exists q1,
       plqu_iter_set_top
         (<[0%nat := Plqu 7 [5; 0; 0; 7; 9; 9; 9; 9] 1 4]> _pool)
         (PlquIter (Some 0%nat) 4 7)
       = Some (0, <[0%nat := q1]>
                    (<[0%nat := Plqu 7 [5; 0; 0; 7; 9; 9; 9; 9] 1 4]> _pool))
       /\ head q1 = 4 - 1
       /\ plqu_top 0 q1 = Some 7
       /\ plqu_pop 0 q1 = Some (7, Plqu 7 [5; 0; 0; 7; 9; 9; 9; 9] 4 4)
       /\ (forall j, 4 <= j ->
             plqu_get 0 q1 j
             = plqu_get 0 (Plqu 7 [5; 0; 0; 7; 9; 9; 9; 9] 1 4) j)
       /\ (forall j, j < 4 -> plqu_get 0 q1 j = Some 0).
Proof.
  assert (plqu_ok (Plqu 7 [5; 0; 0; 7; 9; 9; 9; 9] 1 4)) as Hq by plqu_ok_8.
  assert (plqu_iter_next (Z.eqb 0)
            (<[0%nat := Plqu 7 [5; 0; 0; 7; 9; 9; 9; 9] 1 4]> _pool)
            (PlquIter (Some 0%nat) 0 0)
          = Some (true, PlquIter (Some 0%nat) 4 7,
                  <[0%nat := Plqu 7 [5; 0; 0; 7; 9; 9; 9; 9] 1 4]> _pool))
    as Hnext by reflexivity.
  split; [reflexivity |]. split; [exact Hq |]. split; [exact Hnext |].
  exact (plqu_iter_set_top_pop 0 (Z.eqb 0)
           (<[0%nat := Plqu 7 [5; 0; 0; 7; 9; 9; 9; 9] 1 4]> _pool)
           (PlquIter (Some 0%nat) 0 0)
           0%nat (Plqu 7 [5; 0; 0; 7; 9; 9; 9; 9] 1 4)
           (PlquIter (Some 0%nat) 4 7) eq_refl eq_refl Hq Hnext).
Defined.

(** X11: a full queue of 8 and no memory. *)
Lemma plqu_add_id_witness :
  plqu_ok (Plqu 7 [1; 2; 3; 4; 5; 6; 7; 8] 0 8)
  /\ 8 + 1 < 2 ^ size_bits /\ 8 - 0 < 2 ^ 63
  /\ exists id q',
       plqu_add None (Plqu 7 [1; 2; 3; 4; 5; 6; 7; 8] 0 8) 9 = Some (id, q')
       /\ (id = 0 <->
           8 - 0 = cap (Plqu 7 [1; 2; 3; 4; 5; 6; 7; 8] 0 8)
           /\ @None (nat -> Z) = None)
       /\ (id = 0 -> q' = Plqu 7 [1; 2; 3; 4; 5; 6; 7; 8] 0 8)
       /\ (id <> 0 ->
           id = 8 + 1 /\ tail q' = id /\ head q' = 0
           /\ plqu_get 0 q' id = Some 9)
       /\ (8 - 0 < cap (Plqu 7 [1; 2; 3; 4; 5; 6; 7; 8] 0 8) ->
           cap q' = cap (Plqu 7 [1; 2; 3; 4; 5; 6; 7; 8] 0 8)
           /\ plqu_add None (Plqu 7 [1; 2; 3; 4; 5; 6; 7; 8] 0 8) 9
              = plqu_add None (Plqu 7 [1; 2; 3; 4; 5; 6; 7; 8] 0 8) 9).
Proof.
  assert (plqu_ok (Plqu 7 [1; 2; 3; 4; 5; 6; 7; 8] 0 8)) as Hq by plqu_ok_8.
  assert (8 + 1 < 2 ^ size_bits) as Hn by (unfold size_bits; lia).
  assert (8 - 0 < 2 ^ 63) as Hs by lia.
  split; [exact Hq |]. split; [exact Hn |]. split; [exact Hs |].
  exact (plqu_add_id 0 None _ 9 Hq Hn Hs).
Defined.

(** X12: the first [plqu_add] on a queue gives it a buffer of 8. *)
Lemma run_cap_monotone_witness :
  reachable 0 (Z.eqb 0) (<[0%nat := Plqu (2 ^ 64 - 1) [] 0 0]> _pool)
  /\ allowed (<[0%nat := Plqu (2 ^ 64 - 1) [] 0 0]> _pool)
       (call_plqu_add (Some (fun _ => 0)) 0%nat 5)
  /\ run 0 (Z.eqb 0) (<[0%nat := Plqu (2 ^ 64 - 1) [] 0 0]> _pool)
       (call_plqu_add (Some (fun _ => 0)) 0%nat 5)
     = Some (<[0%nat := Plqu 7 [5; 0; 0; 0; 0; 0; 0; 0] 0 1]> _pool)
  /\ length (<[0%nat := Plqu 7 [5; 0; 0; 0; 0; 0; 0; 0] 0 1]> (@_pool Z))
     = length (<[0%nat := Plqu (2 ^ 64 - 1) [] 0 0]> (@_pool Z))
  /\ forall h q q',
       <[0%nat := Plqu (2 ^ 64 - 1) [] 0 0]> (@_pool Z) !! h = Some q ->
       <[0%nat := Plqu 7 [5; 0; 0; 0; 0; 0; 0; 0] 0 1]> _pool !! h = Some q' ->
       cap q <= cap q'.
Proof.
  assert (reachable 0 (Z.eqb 0) (<[0%nat := Plqu (2 ^ 64 - 1) [] 0 0]> _pool))
    as Hreach.
  { apply (reachable_step 0 (Z.eqb 0) _pool call_make_plqu).
    - apply reachable_init.
    - intros h Hh. discriminate.
    - reflexivity. }
  assert (allowed (<[0%nat := Plqu (2 ^ 64 - 1) [] 0 0]> _pool)
            (call_plqu_add (Some (fun _ => 0)) 0%nat 5)) as Hallowed.
  { intros h Hh. injection Hh as <-. eexists. split; [reflexivity |].
    vm_compute. discriminate. }
  assert (run 0 (Z.eqb 0) (<[0%nat := Plqu (2 ^ 64 - 1) [] 0 0]> _pool)
            (call_plqu_add (Some (fun _ => 0)) 0%nat 5)
          = Some (<[0%nat := Plqu 7 [5; 0; 0; 0; 0; 0; 0; 0] 0 1]> _pool))
    as Hrun by reflexivity.
  split; [exact Hreach |]. split; [exact Hallowed |]. split; [exact Hrun |].
  exact (run_cap_monotone 0 (Z.eqb 0) _ _ _ Hreach Hallowed Hrun).
Defined.

(** X13: the queue in slot 0 after [make_plqu] and one [plqu_add]. *)
Lemma reachable_calls_defined_witness :
  reachable 0 (Z.eqb 0) (<[0%nat := Plqu 7 [5; 0; 0; 0; 0; 0; 0; 0] 0 1]> _pool)
  /\ <[0%nat := Plqu 7 [5; 0; 0; 0; 0; 0; 0; 0] 0 1]> _pool !! 0%nat
     = Some (Plqu 7 [5; 0; 0; 0; 0; 0; 0; 0] 0 1)
  /\ in_use (Plqu 7 [5; 0; 0; 0; 0; 0; 0; 0] 0 1)
  /\ (forall i, is_Some (plqu_get 0 (Plqu 7 [5; 0; 0; 0; 0; 0; 0; 0] 0 1) i))
  /\ (forall i v,
        is_Some (plqu_put (Plqu 7 [5; 0; 0; 0; 0; 0; 0; 0] 0 1) i v)).
Proof.
  assert (in_use (Plqu 7 [5; 0; 0; 0; 0; 0; 0; 0] 0 1)) as Hu
      by (vm_compute; discriminate).
  split; [exact reachable_one_added |]. split; [reflexivity |].
  split; [exact Hu |].
  pose proof (reachable_calls_defined 0 (Z.eqb 0) _ 0%nat _
                reachable_one_added eq_refl Hu) as (Hget & Hput & _).
  split; [exact Hget | exact Hput].
Defined.

(** X14: a walk over the ids 2 to 6, of which 3 and 4 hold nil. *)
Lemma plqu_iter_all_live_witness :
  <[0%nat := Plqu 7 [5; 6; 0; 0; 7; 8; 9; 9] 1 6]> _pool !! 0%nat
  = Some (Plqu 7 [5; 6; 0; 0; 7; 8; 9; 9] 1 6)
  /\ plqu_ok (Plqu 7 [5; 6; 0; 0; 7; 8; 9; 9] 1 6)
  /\ (Z.to_nat (6 - Z.max 0 1) < 6)%nat
  /\ plqu_iter_all (Z.eqb 0) 6
       (<[0%nat := Plqu 7 [5; 6; 0; 0; 7; 8; 9; 9] 1 6]> _pool)
       (PlquIter (Some 0%nat) 0 0)
     = Some ([(2, 6); (5, 7); (6, 8)], true).
Proof.
  assert (plqu_ok (Plqu 7 [5; 6; 0; 0; 7; 8; 9; 9] 1 6)) as Hq by plqu_ok_8.
  assert (Z.to_nat (6 - Z.max 0 1) < 6)%nat as Hf by (vm_compute; lia).
  split; [reflexivity |]. split; [exact Hq |]. split; [exact Hf |].
  exact (plqu_iter_all_live 0 (Z.eqb 0)
           (<[0%nat := Plqu 7 [5; 6; 0; 0; 7; 8; 9; 9] 1 6]> _pool)
           0%nat (Plqu 7 [5; 6; 0; 0; 7; 8; 9; 9] 1 6) 6%nat
           (PlquIter (Some 0%nat) 0 0)
           eq_refl eq_refl Hq Hf).
Defined.

(** X16: the list of a queue with the ids 2 to 5. *)
Lemma plqu_values_spec_witness :
  plqu_ok (Plqu 7 [1; 2; 3; 4; 5; 9; 9; 9] 1 5)
  /\ Z.of_nat (length (plqu_values 0 (Plqu 7 [1; 2; 3; 4; 5; 9; 9; 9] 1 5)))
     = 5 - 1
  /\ forall x q',
       1 < 5 ->
       plqu_pop 0 (Plqu 7 [1; 2; 3; 4; 5; 9; 9; 9] 1 5) = Some (x, q') ->
       plqu_values 0 (Plqu 7 [1; 2; 3; 4; 5; 9; 9; 9] 1 5)
       = x :: plqu_values 0 q'.
Proof.
  assert (plqu_ok (Plqu 7 [1; 2; 3; 4; 5; 9; 9; 9] 1 5)) as Hq by plqu_ok_8.
  split; [exact Hq |].
  pose proof (plqu_values_spec 0 (Plqu 7 [1; 2; 3; 4; 5; 9; 9; 9] 1 5) Hq)
    as (Hlen & _ & Hpop & _).
  split; [exact Hlen | exact Hpop].
Defined.
